(** * Chat.js: a shallow embedding of the [Chat] structure

    [src/structures/Chat.js] keeps an in-memory picture of one direct-message
    thread: three insertion-ordered collections (messages, users, users that
    left), a handful of scalar attributes overwritten by every [_patch], the
    typing-indicator timers and the map of resolvers of the sends in flight.

    The class is stateful and asynchronous.  The embedding passes the state
    explicitly ([World]): the chat object, the client it was created with
    (shared caches and the User objects they point to) and the JavaScript
    runtime (active timers, promises, and the trace of calls made to the
    network client and to the event emitter).  Every [await] and every
    [.then] splits a method in the part that runs at once and the part that
    runs when the awaited promise settles. *)

From Stdlib Require Import ZArith Lia.
From stdpp Require Import base list strings.

Local Open Scope string_scope.

(** ** Collections

    [@discordjs/collection] extends the JavaScript [Map]: keys are unique,
    iteration follows insertion order, [set] on a key that is present keeps
    the key where it is and replaces its value, and [first] is the value
    inserted first.  Order matters to [approve], so a collection is an
    association list in insertion order. *)
Module Collection.

Definition t (V : Type) : Type := list (string * V).

Section Ops.
Context {V : Type}.

Definition empty : t V := [].

Fixpoint get (k : string) (c : t V) : option V :=
  match c with
  | [] => None
  | (k', v) :: r => if String.eqb k k' then Some v else get k r
  end.

Definition has (k : string) (c : t V) : bool :=
  match get k c with Some _ => true | None => false end.

Fixpoint set (k : string) (v : V) (c : t V) : t V :=
  match c with
  | [] => [(k, v)]
  | (k', v') :: r =>
      if String.eqb k k' then (k, v) :: r else (k', v') :: set k v r
  end.

Fixpoint delete (k : string) (c : t V) : t V :=
  match c with
  | [] => []
  | (k', v) :: r =>
      if String.eqb k k' then delete k r else (k', v) :: delete k r
  end.

Definition first (c : t V) : option V :=
  match c with
  | [] => None
  | (_, v) :: _ => Some v
  end.

Definition keys (c : t V) : list string := map fst c.

End Ops.

End Collection.

(** ** What the file imports

    [User] and [Message] are required by [Chat.js] but are other files of
    the package.  [Chat.js] only constructs them and calls [User._patch].
    The fields their constructors and [User._patch] compute are the
    parameters of the development, with the two fields [_patch] reads in a
    snapshot, [pk] and [item_id]; what the constructor of [Message] does to
    the chat is modelled apart, in [new_Message].  ([Attachment], the third
    class required, is met in [sendPhoto] only.) *)
Class Externals := {
  (** one entry of [data.users] / [data.left_users] *)
  UserRecord : Type;
  pk : UserRecord -> string;
  (** one entry of [data.items] *)
  Item : Type;
  item_id : Item -> string;
  (** the fields of a [User] object; [User_new u] is [new User(client, u)]
      and [User_patch u o] is [o._patch(u)] *)
  User : Type;
  User_new : UserRecord -> User;
  User_patch : UserRecord -> User -> User;
  (** the fields of a [Message] object; [Message_new threadID item] are the
      fields of [new Message(client, threadID, item)] *)
  Message : Type;
  Message_new : string -> Item -> Message
}.

(** A JavaScript error value (the reason of a rejected promise). *)
Definition JsError : Type := string.

(** Bytes handed to the network client. *)
Definition Buffer : Type := list Byte.byte.

Section ChatModel.
Context `{Ext : Externals}.

(** *** The snapshot given to [_patch] *)
Record Data := mkData {
  data_users : list UserRecord;
  data_left_users : list UserRecord;
  data_items : list Item;
  data_admin_user_ids : list string;
  data_last_activity_at : Z;
  data_muted : bool;
  data_is_pin : bool;
  data_named : bool;
  data_pending : bool;
  data_is_group : bool;
  data_thread_type : string
}.

(** *** Objects and handles

    A [User] object is shared between the cache and every chat that lists
    it; it is a cell of the heap and the collections hold its address. *)
Definition ref : Type := nat.
Definition handle : Type := nat.
Definition promise : Type := nat.

(** A [Message] object.  [Chat.js] constructs one for every item of every
    merge and never writes to it afterwards: an object is known by its
    place in the order of construction ([msg_ref]) and by the fields it was
    given. *)
Record MessageObj := mkMessageObj {
  msg_ref : ref;
  msg_fields : Message
}.

(** *** The chat object *)
Record Chat := mkChat {
  id : string;
  messages : Collection.t MessageObj;
  users : Collection.t ref;
  leftUsers : Collection.t ref;
  typing : bool;
  _disableTypingOnSend : option bool;      (* [None] is [null] *)
  _stopTypingTimeout : option handle;      (* [None] is [null] *)
  _keepTypingAliveInterval : option handle;
  _sentMessagesPromises : Collection.t promise;
  adminUserIDs : list string;
  lastActivityAt : Z;
  muted : bool;
  isPin : bool;
  named : bool;
  pending : bool;
  isGroup : bool;
  type : string
}.

(** The values of [client.cache.chats] and [client.cache.pendingChats] are
    chat objects: this one, or another one. *)
Inductive ChatRef : Type :=
| ThisChat
| OtherChat (n : nat).

(** *** The client: shared caches and the User objects *)
Record Client := mkClient {
  cache_users : Collection.t ref;
  cache_chats : Collection.t ChatRef;
  cache_pendingChats : Collection.t ChatRef;
  heap : list User;
  next_message : ref     (* how many Message objects were constructed *)
}.

(** *** The runtime *)
Inductive TimerKind : Type :=
| OneShot      (* setTimeout(() => this.stopTyping(), ...) *)
| Repeating.   (* setInterval(() => this._keepTypingAlive(), 9000) *)

Record Timer := mkTimer {
  timer_handle : handle;
  timer_kind : TimerKind;
  timer_delay : Z
}.

Inductive PromiseState : Type :=
| Pending
| Fulfilled (v : option MessageObj)  (* [None] is [undefined] *)
| Rejected (e : JsError).

Inductive Event : Type :=
| NetApprove (threadId : string)
| NetMarkItemSeen (threadId messageID : string)
| NetDeleteItem (threadId messageID : string)
| NetIndicateActivity (threadId : string) (isActive : bool)
| NetBroadcastText (threadId content : string)
| NetBroadcastVoice (threadId : string) (file : Buffer)
| NetBroadcastPhoto (threadId : string) (file : Buffer)
| Emit (name : string) (payload : option MessageObj)
| ResolveCall (p : promise) (v : option MessageObj).

Record Runtime := mkRuntime {
  timers : list Timer;          (* the timers that are scheduled *)
  next_handle : handle;
  promises : list PromiseState; (* a promise is its index *)
  trace : list Event            (* oldest first *)
}.

Record World := mkWorld {
  this : Chat;
  client : Client;
  runtime : Runtime
}.

(** *** Field updates *)
Definition set_collections (m : Collection.t MessageObj)
    (u l : Collection.t ref) (c : Chat) : Chat :=
  {| id := id c; messages := m; users := u; leftUsers := l;
     typing := typing c;
     _disableTypingOnSend := _disableTypingOnSend c;
     _stopTypingTimeout := _stopTypingTimeout c;
     _keepTypingAliveInterval := _keepTypingAliveInterval c;
     _sentMessagesPromises := _sentMessagesPromises c;
     adminUserIDs := adminUserIDs c; lastActivityAt := lastActivityAt c;
     muted := muted c; isPin := isPin c; named := named c;
     pending := pending c; isGroup := isGroup c; type := type c |}.

Definition set_attributes (d : Data) (c : Chat) : Chat :=
  {| id := id c; messages := messages c; users := users c;
     leftUsers := leftUsers c; typing := typing c;
     _disableTypingOnSend := _disableTypingOnSend c;
     _stopTypingTimeout := _stopTypingTimeout c;
     _keepTypingAliveInterval := _keepTypingAliveInterval c;
     _sentMessagesPromises := _sentMessagesPromises c;
     adminUserIDs := data_admin_user_ids d;
     lastActivityAt := data_last_activity_at d;
     muted := data_muted d; isPin := data_is_pin d; named := data_named d;
     pending := data_pending d; isGroup := data_is_group d;
     type := data_thread_type d |}.

Definition set_pending (b : bool) (c : Chat) : Chat :=
  {| id := id c; messages := messages c; users := users c;
     leftUsers := leftUsers c; typing := typing c;
     _disableTypingOnSend := _disableTypingOnSend c;
     _stopTypingTimeout := _stopTypingTimeout c;
     _keepTypingAliveInterval := _keepTypingAliveInterval c;
     _sentMessagesPromises := _sentMessagesPromises c;
     adminUserIDs := adminUserIDs c; lastActivityAt := lastActivityAt c;
     muted := muted c; isPin := isPin c; named := named c;
     pending := b; isGroup := isGroup c; type := type c |}.

Definition set_typing (b : bool) (c : Chat) : Chat :=
  {| id := id c; messages := messages c; users := users c;
     leftUsers := leftUsers c; typing := b;
     _disableTypingOnSend := _disableTypingOnSend c;
     _stopTypingTimeout := _stopTypingTimeout c;
     _keepTypingAliveInterval := _keepTypingAliveInterval c;
     _sentMessagesPromises := _sentMessagesPromises c;
     adminUserIDs := adminUserIDs c; lastActivityAt := lastActivityAt c;
     muted := muted c; isPin := isPin c; named := named c;
     pending := pending c; isGroup := isGroup c; type := type c |}.

Definition set_typing_session (flag : option bool) (t i : option handle)
    (c : Chat) : Chat :=
  {| id := id c; messages := messages c; users := users c;
     leftUsers := leftUsers c; typing := typing c;
     _disableTypingOnSend := flag;
     _stopTypingTimeout := t;
     _keepTypingAliveInterval := i;
     _sentMessagesPromises := _sentMessagesPromises c;
     adminUserIDs := adminUserIDs c; lastActivityAt := lastActivityAt c;
     muted := muted c; isPin := isPin c; named := named c;
     pending := pending c; isGroup := isGroup c; type := type c |}.

Definition set_sentMessagesPromises (s : Collection.t promise)
    (c : Chat) : Chat :=
  {| id := id c; messages := messages c; users := users c;
     leftUsers := leftUsers c; typing := typing c;
     _disableTypingOnSend := _disableTypingOnSend c;
     _stopTypingTimeout := _stopTypingTimeout c;
     _keepTypingAliveInterval := _keepTypingAliveInterval c;
     _sentMessagesPromises := s;
     adminUserIDs := adminUserIDs c; lastActivityAt := lastActivityAt c;
     muted := muted c; isPin := isPin c; named := named c;
     pending := pending c; isGroup := isGroup c; type := type c |}.

Definition set_messages (m : Collection.t MessageObj) (c : Chat) : Chat :=
  set_collections m (users c) (leftUsers c) c.

Definition set_heap (h : list User) (cl : Client) : Client :=
  {| cache_users := cache_users cl; cache_chats := cache_chats cl;
     cache_pendingChats := cache_pendingChats cl; heap := h;
     next_message := next_message cl |}.

Definition set_cache_users (u : Collection.t ref) (cl : Client) : Client :=
  {| cache_users := u; cache_chats := cache_chats cl;
     cache_pendingChats := cache_pendingChats cl; heap := heap cl;
     next_message := next_message cl |}.

Definition set_cache_chats (a p : Collection.t ChatRef) (cl : Client)
    : Client :=
  {| cache_users := cache_users cl; cache_chats := a;
     cache_pendingChats := p; heap := heap cl;
     next_message := next_message cl |}.

Definition set_next_message (n : ref) (cl : Client) : Client :=
  {| cache_users := cache_users cl; cache_chats := cache_chats cl;
     cache_pendingChats := cache_pendingChats cl; heap := heap cl;
     next_message := n |}.

Definition set_timers (ts : list Timer) (n : handle) (r : Runtime)
    : Runtime :=
  {| timers := ts; next_handle := n; promises := promises r;
     trace := trace r |}.

Definition set_promises (ps : list PromiseState) (r : Runtime) : Runtime :=
  {| timers := timers r; next_handle := next_handle r; promises := ps;
     trace := trace r |}.

Definition log (e : Event) (r : Runtime) : Runtime :=
  {| timers := timers r; next_handle := next_handle r;
     promises := promises r; trace := trace r ++ [e] |}.

(** ** The runtime: timers and promises *)

(** [setTimeout] and [setInterval] draw their handles from one pool. *)
Definition setTimer (k : TimerKind) (delay : Z) (r : Runtime)
    : handle * Runtime :=
  let h := next_handle r in
  (h, set_timers (timers r ++ [mkTimer h k delay]) (S h) r).

(** [clearTimeout] and [clearInterval] are interchangeable: either one
    cancels the timer behind the handle, whichever function created it. *)
Definition clearTimer (h : handle) (r : Runtime) : Runtime :=
  set_timers
    (filter (fun t => timer_handle t ≠ h) (timers r)) (next_handle r) r.

Definition scheduled (h : handle) (r : Runtime) : bool :=
  bool_decide (h ∈ map timer_handle (timers r)).

Definition new_promise (r : Runtime) : promise * Runtime :=
  (length (promises r), set_promises (promises r ++ [Pending]) r).

(** A promise settles once; later attempts are ignored. *)
Definition settle (p : promise) (st : PromiseState) (r : Runtime)
    : Runtime :=
  match promises r !! p with
  | Some Pending => set_promises (<[p := st]> (promises r)) r
  | _ => r
  end.

(** Calling the [resolve] function of promise [p]. *)
Definition resolve (p : promise) (v : option MessageObj) (r : Runtime)
    : Runtime :=
  settle p (Fulfilled v) (log (ResolveCall p v) r).

Definition state_of (p : promise) (w : World) : option PromiseState :=
  promises (runtime w) !! p.

Definition is_resolve_of (p : promise) (e : Event) : bool :=
  match e with
  | ResolveCall q _ => Nat.eqb q p
  | _ => false
  end.

(** How often the [resolve] function of [p] was called. *)
Definition resolve_calls (p : promise) (w : World) : nat :=
  length (List.filter (is_resolve_of p) (trace (runtime w))).

Definition with_this (f : Chat -> Chat) (w : World) : World :=
  {| this := f (this w); client := client w; runtime := runtime w |}.

Definition with_client (f : Client -> Client) (w : World) : World :=
  {| this := this w; client := f (client w); runtime := runtime w |}.

Definition with_runtime (f : Runtime -> Runtime) (w : World) : World :=
  {| this := this w; client := client w; runtime := f (runtime w) |}.

(** *** [_patch]

    The callback of the first two [forEach] loops, which differ in the
    local collection only ([this.users] or [this.leftUsers]).  [new User]
    allocates the next heap cell. *)
Definition patch_entry (user : UserRecord)
    (st : Collection.t ref * Client) : Collection.t ref * Client :=
  let '(local, cl) := st in
  match Collection.get (pk user) (cache_users cl) with
  | Some exisiting =>
      let local := Collection.set (pk user) exisiting local in
      match Collection.get (pk user) local with
      | Some o => (local, set_heap (alter (User_patch user) o (heap cl)) cl)
      | None => (local, cl)
      end
  | None =>
      let o := length (heap cl) in
      let cl := set_heap (heap cl ++ [User_new user]) cl in
      let local := Collection.set (pk user) o local in
      match Collection.get (pk user) local with
      | Some o' =>
          (local,
           set_cache_users (Collection.set (pk user) o' (cache_users cl)) cl)
      | None => (local, cl)
      end
  end.

Definition patch_entries (l : list UserRecord)
    (st : Collection.t ref * Client) : Collection.t ref * Client :=
  fold_left (fun st user => patch_entry user st) l st.

(** Modelled from the spec: the constructor of [Message] ([Message.js] is
    not under [src/]).  [Chat.js] hands it the client and the identifier of
    the thread, not the chat: it finds the chat in [client.cache.chats].
    Spec 3 and 4.2: a merge that brings a message whose identifier has a
    pending-send waiter resolves the waiter with that message and removes
    it.  So, when [client.cache.chats] holds this chat under the identifier
    of the thread and the chat has a resolver under the identifier of the
    item, the constructor calls the resolver with the Message under
    construction and deletes it from [_sentMessagesPromises].  A chat that
    is not in [client.cache.chats] is not found, and nothing is resolved;
    when the cache holds another chat object under the identifier, what
    the constructor reads is the map of that object, not of this chat. *)
Definition new_Message (threadID : string) (item : Item) (w : World)
    : MessageObj * World :=
  let m := mkMessageObj (next_message (client w))
             (Message_new threadID item) in
  let w := with_client (set_next_message (S (next_message (client w)))) w in
  match Collection.get threadID (cache_chats (client w)) with
  | Some ThisChat =>
      match Collection.get (item_id item) (_sentMessagesPromises (this w)) with
      | Some resolve_of =>
          let w := with_runtime (resolve resolve_of (Some m)) w in
          (m,
           with_this
             (fun c => set_sentMessagesPromises
                (Collection.delete (item_id item) (_sentMessagesPromises c))
                c) w)
      | None => (m, w)
      end
  | _ => (m, w)
  end.

(** The callback of the third loop:
    [this.messages.set(item.item_id, new Message(this.client, this.id, item))]. *)
Definition patch_item (w : World) (item : Item) : World :=
  let '(m, w) := new_Message (id (this w)) item w in
  with_this
    (fun c => set_messages (Collection.set (item_id item) m (messages c)) c)
    w.

(** The first two loops. *)
Definition patch_members (data : Data) (w : World) : World :=
  let c := this w in
  let '(us, cl) := patch_entries (data_users data) (users c, client w) in
  let '(ls, cl) := patch_entries (data_left_users data) (leftUsers c, cl) in
  {| this := set_collections (messages c) us ls c;
     client := cl;
     runtime := runtime w |}.

Definition _patch (data : Data) (w : World) : World :=
  with_this (set_attributes data)
    (fold_left patch_item (data_items data) (patch_members data w)).

(** The constructor: empty collections, no typing session, then [_patch].
    The scalar attributes are unassigned until [_patch] assigns them, which
    happens before the constructor returns. *)
Definition new_Chat (cl : Client) (rt : Runtime) (threadID : string)
    (data : Data) : World :=
  _patch data
    {| this :=
         {| id := threadID; messages := Collection.empty;
            users := Collection.empty; leftUsers := Collection.empty;
            typing := false; _disableTypingOnSend := None;
            _stopTypingTimeout := None; _keepTypingAliveInterval := None;
            _sentMessagesPromises := Collection.empty;
            adminUserIDs := data_admin_user_ids data;
            lastActivityAt := data_last_activity_at data;
            muted := data_muted data; isPin := data_is_pin data;
            named := data_named data; pending := data_pending data;
            isGroup := data_is_group data;
            type := data_thread_type data |};
       client := cl;
       runtime := rt |}.

(** The outcome of a call to the network client. *)
Inductive NetResult (A : Type) : Type :=
| NetOk (a : A)
| NetFailed (e : JsError).
Global Arguments NetOk {A} a.
Global Arguments NetFailed {A} e.

(** ** [approve]

    [approve_begin] runs up to the [await]; [approve_settled] is the rest
    of the method, run when the network call settles.  When the call fails
    the [await] throws and the method ends there. *)
Definition approve_begin (w : World) : World :=
  let w := with_this (set_pending false) w in
  with_runtime (log (NetApprove (id (this w)))) w.

Definition approve_resume (w : World) : World :=
  let c := this w in
  let cl := client w in
  let chats :=
    if negb (Collection.has (id c) (cache_chats cl))
    then Collection.set (id c) ThisChat (cache_chats cl)
    else cache_chats cl in
  let pendingChats := Collection.delete (id c) (cache_pendingChats cl) in
  {| this := c;
     client := set_cache_chats chats pendingChats cl;
     runtime :=
       log (Emit "messageCreate" (Collection.first (messages c)))
           (runtime w) |}.

Definition approve_settled (r : NetResult unit) (w : World) : World :=
  match r with
  | NetOk _ => approve_resume w
  | NetFailed _ => w
  end.

(** ** [markMessageSeen] and [deleteMessage]: the network call, no more *)
Definition markMessageSeen (messageID : string) (w : World) : World :=
  with_runtime (log (NetMarkItemSeen (id (this w)) messageID)) w.

Definition deleteMessage (messageID : string) (w : World) : World :=
  with_runtime (log (NetDeleteItem (id (this w)) messageID)) w.

(** ** Typing *)

Definition _keepTypingAlive (w : World) : World :=
  if typing (this w)
  then with_runtime (log (NetIndicateActivity (id (this w)) true)) w
  else match _keepTypingAliveInterval (this w) with
       | Some h => with_runtime (clearTimer h) w
       | None => w
       end.

(** [{ duration, disableOnSend } = {}]: a field left out is [undefined]. *)
Record TypingOptions := mkTypingOptions {
  duration : option Z;
  disableOnSend : option bool
}.

Definition startTyping_begin (w : World) : World :=
  let w := with_this (set_typing true) w in
  with_runtime (log (NetIndicateActivity (id (this w)) true)) w.

(** [duration || 10000]: [undefined] and [0] are falsy. *)
Definition timeout_of (d : option Z) : Z :=
  match d with
  | Some z => if (z =? 0)%Z then 10000%Z else z
  | None => 10000%Z
  end.

Definition startTyping_resume (o : TypingOptions) (w : World) : World :=
  let flag := match disableOnSend o with Some b => b | None => true end in
  let '(t, rt) := setTimer OneShot (timeout_of (duration o)) (runtime w) in
  let '(i, rt) := setTimer Repeating 9000%Z rt in
  {| this := set_typing_session (Some flag) (Some t) (Some i) (this w);
     client := client w;
     runtime := rt |}.

Definition startTyping_settled (o : TypingOptions) (r : NetResult unit)
    (w : World) : World :=
  match r with
  | NetOk _ => startTyping_resume o w
  | NetFailed _ => w
  end.

(** Nothing follows the [await] of [stopTyping]. *)
Definition stopTyping (w : World) : World :=
  let w :=
    match _keepTypingAliveInterval (this w) with
    | Some h => with_runtime (clearTimer h) w
    | None => w
    end in
  let w := with_this (set_typing false) w in
  with_runtime (log (NetIndicateActivity (id (this w)) false)) w.

(** The event loop runs the callback of a scheduled timer; a one-shot
    timer is gone once it has fired. *)
Definition fire (h : handle) (w : World) : World :=
  match List.find (fun t => bool_decide (timer_handle t = h))
                  (timers (runtime w)) with
  | Some t =>
      match timer_kind t with
      | OneShot => stopTyping (with_runtime (clearTimer h) w)
      | Repeating => _keepTypingAlive w
      end
  | None => w
  end.

(** ** Sending

    [new Promise((resolve) => { broadcast(...).then(callback) })]: the
    promise handed to the caller ([outer]) has a [resolve] function and no
    [reject] function; [.then(callback)], called without a rejection
    handler, makes a second promise ([chained]) that nobody keeps. *)
Record Send := mkSend {
  outer : promise;
  chained : promise
}.

Definition send (call : string -> Event) (w : World) : Send * World :=
  let '(p, rt) := new_promise (runtime w) in
  let rt := log (call (id (this w))) rt in
  let '(q, rt) := new_promise rt in
  (mkSend p q, {| this := this w; client := client w; runtime := rt |}).

Definition sendMessage (content : string) (w : World) : Send * World :=
  send (fun threadId => NetBroadcastText threadId content) w.

Definition sendVoice (buffer : Buffer) (w : World) : Send * World :=
  send (fun threadId => NetBroadcastVoice threadId buffer) w.

(** [!this._disableTypingOnSend]: [null] and [false] are falsy. *)
Definition falsy (b : option bool) : bool :=
  match b with
  | Some true => false
  | _ => true
  end.

(** The callback given to [.then], the same in the three methods; [tick]
    is its first line,
    [if (this.typing && !this._disableTypingOnSend) this._keepTypingAlive()]. *)
Definition tick (w : World) : World :=
  if typing (this w) && falsy (_disableTypingOnSend (this w))
  then _keepTypingAlive w else w.

Definition on_broadcast (resolve_of : promise) (itemID : string)
    (w : World) : World :=
  let w := tick w in
  let w :=
    with_this (fun c => set_sentMessagesPromises
                 (Collection.set itemID resolve_of
                    (_sentMessagesPromises c)) c) w in
  if Collection.has itemID (messages (this w))
  then
    let w :=
      with_this (fun c => set_sentMessagesPromises
                   (Collection.delete itemID (_sentMessagesPromises c)) c)
                w in
    with_runtime
      (resolve resolve_of (Collection.get itemID (messages (this w)))) w
  else w.

(** The broadcast call settles.  On success the callback runs and the
    chained promise is fulfilled with what the callback returns
    ([undefined]); on failure the chained promise is rejected and no code
    of the method runs. *)
Definition broadcast_settled (s : Send) (r : NetResult string) (w : World)
    : World :=
  match r with
  | NetOk itemID =>
      with_runtime (settle (chained s) (Fulfilled None))
                   (on_broadcast (outer s) itemID w)
  | NetFailed e => with_runtime (settle (chained s) (Rejected e)) w
  end.

(** [sendPhoto].  [Attachment._verify] is not part of this file: what it
    does is an input of the model.  It either throws at once (inside the
    executor, so the constructor of the promise rejects the promise with
    what was thrown) or returns a promise, settled later by
    [verify_settled] with the bytes of the file or with an error. *)
Definition sendPhoto (verify_throws : option JsError) (w : World)
    : Send * World :=
  let '(p, rt) := new_promise (runtime w) in
  match verify_throws with
  | Some e =>
      (mkSend p p,
       {| this := this w; client := client w;
          runtime := settle p (Rejected e) rt |})
  | None =>
      let '(q, rt) := new_promise rt in
      (mkSend p q, {| this := this w; client := client w; runtime := rt |})
  end.

(** The promise of [_verify] settles; [s] is what [sendPhoto] returned.
    On success the broadcast is issued and the result is the pair to give
    to [broadcast_settled]. *)
Definition verify_settled (s : Send) (r : NetResult Buffer) (w : World)
    : option Send * World :=
  match r with
  | NetOk file =>
      let rt := log (NetBroadcastPhoto (id (this w)) file) (runtime w) in
      let '(q, rt) := new_promise rt in
      let rt := settle (chained s) (Fulfilled None) rt in
      (Some (mkSend (outer s) q),
       {| this := this w; client := client w; runtime := rt |})
  | NetFailed e =>
      (None, with_runtime (settle (chained s) (Rejected e)) w)
  end.

(** ** States a chat can be in

    A chat is built by the constructor and changed by merges afterwards. *)
Inductive reachable : World -> Prop :=
| reachable_new cl rt threadID data :
    reachable (new_Chat cl rt threadID data)
| reachable_patch data w :
    reachable w -> reachable (_patch data w).

(** No user is both a member and a departed member. *)
Definition members_disjoint (w : World) : Prop :=
  forall k : string,
    ~ (Collection.has k (users (this w)) = true /\
       Collection.has k (leftUsers (this w)) = true).

(** The scalar attributes of a chat, and the ones a snapshot carries. *)
Definition attributes (c : Chat) :=
  (adminUserIDs c, lastActivityAt c, muted c, isPin c, named c, pending c,
   isGroup c, type c).

Definition attributes_of (d : Data) :=
  (data_admin_user_ids d, data_last_activity_at d, data_muted d,
   data_is_pin d, data_named d, data_pending d, data_is_group d,
   data_thread_type d).

(** The keys of the entries of [l] that the cache does not hold, each key
    once. *)
Definition unknown_keys (cache : Collection.t ref) (l : list UserRecord)
    : list string :=
  remove_dups
    (filter (fun k => Collection.has k cache = false) (map pk l)).

Definition count_kind (k : TimerKind) (r : Runtime) : nat :=
  length (List.filter
            (fun t => match timer_kind t, k with
                      | OneShot, OneShot | Repeating, Repeating => true
                      | _, _ => false
                      end) (timers r)).

Definition is_emit (e : Event) : bool :=
  match e with
  | Emit _ _ => true
  | _ => false
  end.

Definition is_broadcast (e : Event) : bool :=
  match e with
  | NetBroadcastText _ _ | NetBroadcastVoice _ _ | NetBroadcastPhoto _ _ =>
      true
  | _ => false
  end.

(** ** Notions used to state further properties *)

(** The last item of a list with a given identifier. *)
Definition last_item (k : string) (l : list Item) : option Item :=
  List.find (fun it => String.eqb k (item_id it)) (rev l).

(** [c'] has the keys of [c] in their places and new keys after them. *)
Definition extends {V : Type} (c c' : Collection.t V) : Prop :=
  exists new : list string,
    Collection.keys c' = (Collection.keys c ++ new)%list /\
    forall k, k ∈ new -> Collection.has k c = false.

(** The users of the chat are the objects of the cache. *)
Definition users_from_cache (w : World) : Prop :=
  forall k o,
    Collection.get k (users (this w)) = Some o \/
    Collection.get k (leftUsers (this w)) = Some o ->
    Collection.get k (cache_users (client w)) = Some o.

Definition is_activity (e : Event) : bool :=
  match e with
  | NetIndicateActivity _ _ => true
  | _ => false
  end.

(** The runtime never hands out a handle twice: the handles of the timers
    that are scheduled are below the next handle. *)
Definition handles_fresh (r : Runtime) : Prop :=
  Forall (fun t => timer_handle t < next_handle r) (timers r).

(** The fields of the messages of a collection, their identity left
    out, and the merge of one item as it acts on them. *)
Definition fields_of (c : Collection.t MessageObj) : Collection.t Message :=
  map (fun km => (fst km, msg_fields (snd km))) c.

Definition merge_fields (threadID : string) (m : Collection.t Message)
    (item : Item) : Collection.t Message :=
  Collection.set (item_id item) (Message_new threadID item) m.

Definition ids (l : list Item) : list string := map item_id l.

(** [client.cache.chats] holds this chat under its identifier. *)
Definition is_registered (w : World) : bool :=
  match Collection.get (id (this w)) (cache_chats (client w)) with
  | Some ThisChat => true
  | _ => false
  end.

(** The Message that the loop over the items constructs for an item, and
    the resolver its constructor finds. *)
Definition made (w : World) (it : Item) : MessageObj :=
  mkMessageObj (next_message (client w)) (Message_new (id (this w)) it).

Definition found (w : World) (it : Item) : option promise :=
  if is_registered w
  then Collection.get (item_id it) (_sentMessagesPromises (this w))
  else None.

(** The resolvers that are stored belong to promises that exist. *)
Definition resolvers_allocated (w : World) : Prop :=
  forall k p,
    Collection.get k (_sentMessagesPromises (this w)) = Some p ->
    p < length (promises (runtime w)).

(** What the loop over the items never touches. *)
Definition items_frame (w w' : World) : Prop :=
  id (this w') = id (this w) /\
  users (this w') = users (this w) /\
  leftUsers (this w') = leftUsers (this w) /\
  typing (this w') = typing (this w) /\
  _disableTypingOnSend (this w') = _disableTypingOnSend (this w) /\
  _stopTypingTimeout (this w') = _stopTypingTimeout (this w) /\
  _keepTypingAliveInterval (this w') = _keepTypingAliveInterval (this w) /\
  attributes (this w') = attributes (this w) /\
  cache_users (client w') = cache_users (client w) /\
  cache_chats (client w') = cache_chats (client w) /\
  cache_pendingChats (client w') = cache_pendingChats (client w) /\
  heap (client w') = heap (client w) /\
  timers (runtime w') = timers (runtime w) /\
  next_handle (runtime w') = next_handle (runtime w).

(** The entries of a list whose key the cache maps to the object [o], and
    their patches applied in turn. *)
Definition patches_for (cache : Collection.t ref) (o : ref)
    (l : list UserRecord) : list UserRecord :=
  List.filter
    (fun u => match Collection.get (pk u) cache with
              | Some o' => Nat.eqb o' o
              | None => false
              end) l.

Definition apply_patches (l : list UserRecord) (x : User) : User :=
  fold_left (fun x u => User_patch u x) l x.

(** ** The chat over time

    What happens to a chat is a sequence of calls of its methods and of
    events of the runtime: an awaited call settles, a timer fires. *)
Inductive Op : Type :=
| DoPatch (data : Data)
| DoApprove
| ApproveSettled (r : NetResult unit)
| DoMarkMessageSeen (messageID : string)
| DoDeleteMessage (messageID : string)
| DoStartTyping
| StartTypingSettled (o : TypingOptions) (r : NetResult unit)
| DoStopTyping
| TimerFires (h : handle)
| DoSendMessage (content : string)
| DoSendVoice (buffer : Buffer)
| DoSendPhoto (verify_throws : option JsError)
| VerifySettled (s : Send) (r : NetResult Buffer)
| BroadcastSettled (s : Send) (r : NetResult string).

Definition step (op : Op) (w : World) : World :=
  match op with
  | DoPatch data => _patch data w
  | DoApprove => approve_begin w
  | ApproveSettled r => approve_settled r w
  | DoMarkMessageSeen m => markMessageSeen m w
  | DoDeleteMessage m => deleteMessage m w
  | DoStartTyping => startTyping_begin w
  | StartTypingSettled o r => startTyping_settled o r w
  | DoStopTyping => stopTyping w
  | TimerFires h => fire h w
  | DoSendMessage content => snd (sendMessage content w)
  | DoSendVoice buffer => snd (sendVoice buffer w)
  | DoSendPhoto verify_throws => snd (sendPhoto verify_throws w)
  | VerifySettled s r => snd (verify_settled s r w)
  | BroadcastSettled s r => broadcast_settled s r w
  end.

Definition run (ops : list Op) (w : World) : World :=
  fold_left (fun w op => step op w) ops w.

Definition is_patch (op : Op) : bool :=
  match op with
  | DoPatch _ => true
  | _ => false
  end.

(** A merge that brings an item with identifier [i]. *)
Definition brings (i : string) (op : Op) : bool :=
  match op with
  | DoPatch data => bool_decide (i ∈ ids (data_items data))
  | _ => false
  end.

(** The answer of a broadcast that carries identifier [i]. *)
Definition answers (i : string) (op : Op) : bool :=
  match op with
  | BroadcastSettled _ (NetOk j) => String.eqb j i
  | _ => false
  end.

(** What identifies a chat and what it holds. *)
Definition contents (c : Chat) :=
  (id c, messages c, users c, leftUsers c).

End ChatModel.

(** ** A small instance to run the model on

    A user entry is its key and a user name, a User object keeps the name it
    was given last; a message keeps the thread it belongs to and its item. *)
Module Demo.

Record RawUser := mkRawUser { raw_pk : string; raw_username : string }.
Record RawItem := mkRawItem { raw_item_id : string; raw_text : string }.

#[global] Instance demo : Externals := {|
  UserRecord := RawUser;
  pk := raw_pk;
  Item := RawItem;
  item_id := raw_item_id;
  User := string;
  User_new := raw_username;
  User_patch := fun u _ => raw_username u;
  Message := string * RawItem;
  Message_new := fun threadID item => (threadID, item)
|}.

Definition no_client : Client :=
  {| cache_users := Collection.empty; cache_chats := Collection.empty;
     cache_pendingChats := Collection.empty; heap := [];
     next_message := 0 |}.

Definition no_runtime : Runtime :=
  {| timers := []; next_handle := 1; promises := []; trace := [] |}.

Definition snapshot (us ls : list RawUser) (its : list RawItem) : Data :=
  {| data_users := us; data_left_users := ls; data_items := its;
     data_admin_user_ids := []; data_last_activity_at := 0%Z;
     data_muted := false; data_is_pin := false; data_named := false;
     data_pending := true; data_is_group := false;
     data_thread_type := "private" |}.

Definition alice : RawUser := mkRawUser "1" "alice".
Definition alice' : RawUser := mkRawUser "1" "alice.b".
Definition bob : RawUser := mkRawUser "2" "bob".
Definition hello : RawItem := mkRawItem "m1" "hello".
Definition again : RawItem := mkRawItem "m2" "again".

(** A thread with one member and no message yet. *)
Definition fresh : World :=
  new_Chat no_client no_runtime "t1" (snapshot [alice] [] []).

(** The same thread after a snapshot that lists the member as departed. *)
Definition departed : World := _patch (snapshot [] [alice] []) fresh.

(** A pending thread with two messages, listed in [pendingChats]. *)
Definition requested : World :=
  new_Chat
    {| cache_users := Collection.empty; cache_chats := Collection.empty;
       cache_pendingChats := [("t1", ThisChat)]; heap := [];
       next_message := 0 |}
    no_runtime "t1" (snapshot [alice] [] [hello; again]).

Definition no_options : TypingOptions :=
  {| duration := None; disableOnSend := None |}.

(** [startTyping()] with the network call answered. *)
Definition startTyping (w : World) : World :=
  startTyping_settled no_options (NetOk tt) (startTyping_begin w).

(** [sendMessage('hey')] on the thread [fresh]. *)
Definition sent : Send * World := sendMessage "hey" fresh.





(** The broadcast fails. *)
Definition send_failed : World :=
  broadcast_settled (fst sent) (NetFailed "offline") (snd sent).

(** [sendPhoto('./cat.png')] with a file that cannot be read: the promise
    of [_verify] is rejected. *)
Definition photo : Send * World := sendPhoto None fresh.

Definition photo_unreadable : option Send * World :=
  verify_settled (fst photo) (NetFailed "ENOENT") (snd photo).

(** [approve()] on the pending thread, the network call failing. *)
Definition approve_failed : World :=
  approve_settled (NetFailed "timeout") (approve_begin requested).

(** The thread once [approve] has put it in [client.cache.chats]; a send
    answered with ["m1"] before the merge that brings ["m1"]. *)
Definition approved : World :=
  approve_settled (NetOk tt) (approve_begin fresh).

Definition approved_sent : Send * World := sendMessage "hey" approved.

Definition approved_answered : World :=
  broadcast_settled (fst approved_sent) (NetOk "m1") (snd approved_sent).


(** A snapshot that brings the first message again, edited. *)
Definition hello' : RawItem := mkRawItem "m1" "hello!".

Definition edited : Data := snapshot [alice] [] [hello'].

End Demo.

(** * Properties *)

(** ** Collections *)
Section CollectionFacts.
Context {V : Type}.
Implicit Types (k : string) (v : V) (c : Collection.t V).

Lemma get_set_eq k v c : Collection.get k (Collection.set k v c) = Some v.
Proof.
  induction c as [|[k' v'] r IH]; simpl.
  - now rewrite String.eqb_refl.
  - destruct (String.eqb k k') eqn:E; simpl; rewrite ?String.eqb_refl, ?E;
      auto.
Qed.

Lemma get_set_ne k k' v c :
  k' <> k -> Collection.get k' (Collection.set k v c) = Collection.get k' c.
Proof.
  intros Hne. apply String.eqb_neq in Hne.
  induction c as [|[k0 v0] r IH]; simpl.
  - now rewrite Hne.
  - destruct (String.eqb k k0) eqn:E; simpl.
    + apply String.eqb_eq in E. subst k0. now rewrite Hne.
    + now rewrite IH.
Qed.

Lemma has_set k k' v c :
  Collection.has k' (Collection.set k v c)
  = String.eqb k' k || Collection.has k' c.
Proof.
  unfold Collection.has.
  destruct (String.eqb k' k) eqn:E.
  - apply String.eqb_eq in E. subst. now rewrite get_set_eq.
  - apply String.eqb_neq in E. now rewrite get_set_ne.
Qed.

Lemma get_delete_eq k c : Collection.get k (Collection.delete k c) = None.
Proof.
  induction c as [|[k' v'] r IH]; simpl; auto.
  destruct (String.eqb k k') eqn:E; simpl; rewrite ?E; auto.
Qed.

Lemma has_delete_eq k c : Collection.has k (Collection.delete k c) = false.
Proof. unfold Collection.has. now rewrite get_delete_eq. Qed.


(** [set] never moves the oldest entry of a collection that has one. *)
Lemma first_set_old k v k0 v0 c :
  Collection.first (Collection.set k v ((k0, v0) :: c))
  = Some (if String.eqb k k0 then v else v0).
Proof. simpl. now destruct (String.eqb k k0). Qed.

End CollectionFacts.

(** ** Keys and order of a collection *)
Section CollectionOrder.
Context {V : Type}.
Implicit Types (k : string) (v : V) (c : Collection.t V).

Lemma has_keys k c : Collection.has k c = true <-> k ∈ Collection.keys c.
Proof.
  unfold Collection.has, Collection.keys.
  induction c as [|[k' v'] r IH]; simpl.
  - split; [discriminate|]. intros H. inversion H.
  - rewrite elem_of_cons. destruct (String.eqb_spec k k') as [->|Hne].
    + tauto.
    + rewrite IH. tauto.
Qed.

Lemma keys_set k v c :
  Collection.keys (Collection.set k v c)
  = if Collection.has k c then Collection.keys c
    else (Collection.keys c ++ [k])%list.
Proof.
  unfold Collection.has, Collection.keys.
  induction c as [|[k' v'] r IH]; simpl; [reflexivity|].
  destruct (String.eqb_spec k k') as [->|Hne]; simpl; [reflexivity|].
  rewrite IH. now destruct (Collection.get k r).
Qed.

Lemma set_same k v c :
  Collection.get k c = Some v -> Collection.set k v c = c.
Proof.
  induction c as [|[k' v'] r IH]; simpl; [discriminate|].
  destruct (String.eqb_spec k k') as [->|Hne].
  - now intros [= ->].
  - intros H. now rewrite IH.
Qed.

Lemma set_set_eq k v v' c :
  Collection.set k v (Collection.set k v' c) = Collection.set k v c.
Proof.
  induction c as [|[k' v0] r IH]; simpl.
  - now rewrite String.eqb_refl.
  - destruct (String.eqb k k') eqn:E; simpl.
    + now rewrite String.eqb_refl.
    + now rewrite E, IH.
Qed.

(** Two writes to different keys commute when the first key written is
    there already. *)
Lemma set_set_ne k k' v v' c :
  k <> k' -> Collection.has k' c = true ->
  Collection.set k v (Collection.set k' v' c)
  = Collection.set k' v' (Collection.set k v c).
Proof.
  intros Hne. unfold Collection.has.
  induction c as [|[k0 v0] r IH]; simpl; [discriminate|].
  destruct (String.eqb_spec k' k0) as [->|Hne'].
  - intros _. simpl.
    destruct (String.eqb_spec k k0) as [->|_]; [congruence|].
    simpl. now rewrite String.eqb_refl.
  - intros H. simpl.
    destruct (String.eqb_spec k k0) as [->|Hne0]; simpl.
    + destruct (String.eqb_spec k' k0); [congruence|reflexivity].
    + destruct (String.eqb_spec k' k0); [congruence|]. now rewrite IH.
Qed.

Lemma get_delete_ne k k' c :
  k' <> k ->
  Collection.get k' (Collection.delete k c) = Collection.get k' c.
Proof.
  intros Hne. induction c as [|[k0 v0] r IH]; simpl; [reflexivity|].
  destruct (String.eqb_spec k k0) as [->|Hne0]; simpl.
  - rewrite IH. destruct (String.eqb_spec k' k0); [congruence|reflexivity].
  - now rewrite IH.
Qed.

Lemma extends_refl c : extends c c.
Proof.
  exists []. split; [now rewrite app_nil_r|]. intros k H. inversion H.
Qed.

Lemma extends_set k v c : extends c (Collection.set k v c).
Proof.
  unfold extends. rewrite keys_set.
  destruct (Collection.has k c) eqn:E.
  - exists []. split; [now rewrite app_nil_r|]. intros k' H. inversion H.
  - exists [k]. split; [reflexivity|].
    intros k' H. apply list_elem_of_singleton in H. now subst.
Qed.

Lemma extends_trans c1 c2 c3 : extends c1 c2 -> extends c2 c3 -> extends c1 c3.
Proof.
  intros (n1 & E1 & H1) (n2 & E2 & H2). exists (n1 ++ n2)%list. split.
  - now rewrite E2, E1, app_assoc.
  - intros k Hk. apply elem_of_app in Hk as [Hk|Hk]; [now apply H1|].
    specialize (H2 k Hk). destruct (Collection.has k c1) eqn:E; [|reflexivity].
    apply has_keys in E.
    assert (Hin : k ∈ Collection.keys c2) by (rewrite E1, elem_of_app; tauto).
    apply has_keys in Hin. congruence.
Qed.

Lemma extends_head c c' k :
  extends c c' ->
  head (Collection.keys c) = Some k -> head (Collection.keys c') = Some k.
Proof.
  intros (new & E & _) H. rewrite E.
  destruct (Collection.keys c); [discriminate|exact H].
Qed.

End CollectionOrder.

(** ** Promises *)
Section RuntimeFacts.
Context `{Ext : Externals}.
Implicit Types (w : World) (r : Runtime) (p q : promise).

Lemma settle_other p q st r :
  p <> q -> promises (settle q st r) !! p = promises r !! p.
Proof.
  intros Hne. unfold settle.
  destruct (promises r !! q) as [[| |]|]; simpl; auto.
  now apply list_lookup_insert_ne.
Qed.

Lemma settle_pending p st r :
  promises r !! p = Some Pending -> promises (settle p st r) !! p = Some st.
Proof.
  intros H. unfold settle. rewrite H. simpl.
  apply list_lookup_insert_eq. now apply lookup_lt_Some in H.
Qed.

Lemma settle_trace p st r : trace (settle p st r) = trace r.
Proof. unfold settle. now destruct (promises r !! p) as [[| |]|]. Qed.

Lemma settle_timers p st r : timers (settle p st r) = timers r.
Proof. unfold settle. now destruct (promises r !! p) as [[| |]|]. Qed.

Lemma settle_next_handle p st r : next_handle (settle p st r) = next_handle r.
Proof. unfold settle. now destruct (promises r !! p) as [[| |]|]. Qed.

Lemma settle_length p st r :
  length (promises (settle p st r)) = length (promises r).
Proof.
  unfold settle. destruct (promises r !! p) as [[| |]|]; simpl; auto.
  apply length_insert.
Qed.

(** Calling the resolver of another promise. *)
Lemma resolve_other p q v r :
  p <> q ->
  promises (resolve q v r) !! p = promises r !! p /\
  List.filter (is_resolve_of p) (trace (resolve q v r))
  = List.filter (is_resolve_of p) (trace r).
Proof.
  intros Hne. unfold resolve. split.
  - now rewrite settle_other.
  - rewrite settle_trace. simpl. rewrite List.filter_app. simpl.
    destruct (Nat.eqb_spec q p); [congruence|]. apply app_nil_r.
Qed.


End RuntimeFacts.
(** ** What [_patch] assigns *)
Section PatchFacts.
Context `{Ext : Externals}.
Implicit Types (d : Data) (w : World) (cl : Client) (it : Item)
               (l : list Item) (k : string).

Lemma elem_of_cons_eqb (k x : string) (ks : list string) :
  bool_decide (k ∈ x :: ks) = String.eqb k x || bool_decide (k ∈ ks).
Proof.
  destruct (String.eqb_spec k x) as [->|Hne]; simpl.
  - apply bool_decide_true. left.
  - apply bool_decide_ext. rewrite elem_of_cons. intuition congruence.
Qed.

(** *** The two loops over the users *)

(** One entry: the local collection gains the key of the entry and keeps
    every other key as it was. *)
Lemma patch_entry_has user (local : Collection.t ref) cl k :
  Collection.has k (fst (patch_entry user (local, cl)))
  = String.eqb k (pk user) || Collection.has k local.
Proof.
  unfold patch_entry.
  destruct (Collection.get (pk user) (cache_users cl)) as [o|].
  - rewrite get_set_eq. simpl. apply has_set.
  - rewrite get_set_eq. simpl. apply has_set.
Qed.

Lemma patch_entries_has (us : list UserRecord) (local : Collection.t ref)
    cl k :
  Collection.has k (fst (patch_entries us (local, cl)))
  = bool_decide (k ∈ map pk us) || Collection.has k local.
Proof.
  revert local cl. induction us as [|u us IH]; intros local cl.
  - reflexivity.
  - change (patch_entries (u :: us) (local, cl))
      with (patch_entries us (patch_entry u (local, cl))).
    destruct (patch_entry u (local, cl)) as [local1 cl1] eqn:E.
    rewrite IH.
    assert (H1 : Collection.has k local1
                 = String.eqb k (pk u) || Collection.has k local).
    { rewrite <- patch_entry_has with (cl := cl). now rewrite E. }
    rewrite H1. cbn [map]. rewrite elem_of_cons_eqb.
    destruct (String.eqb k (pk u)), (bool_decide (k ∈ map pk us));
      reflexivity.
Qed.

(** The loops over the users touch the users of the cache and the User
    objects, nothing else of the client. *)
Lemma patch_entry_client u (local : Collection.t ref) cl :
  cache_chats (snd (patch_entry u (local, cl))) = cache_chats cl /\
  cache_pendingChats (snd (patch_entry u (local, cl)))
  = cache_pendingChats cl /\
  next_message (snd (patch_entry u (local, cl))) = next_message cl.
Proof.
  unfold patch_entry.
  destruct (Collection.get (pk u) (cache_users cl)) as [o|];
    rewrite get_set_eq; now repeat split.
Qed.

Lemma patch_entries_client_rest (us : list UserRecord)
    (local : Collection.t ref) cl :
  cache_chats (snd (patch_entries us (local, cl))) = cache_chats cl /\
  cache_pendingChats (snd (patch_entries us (local, cl)))
  = cache_pendingChats cl /\
  next_message (snd (patch_entries us (local, cl))) = next_message cl.
Proof.
  revert local cl. induction us as [|u us IH]; intros local cl;
    [now repeat split|].
  change (patch_entries (u :: us) (local, cl))
    with (patch_entries us (patch_entry u (local, cl))).
  destruct (patch_entry_client u local cl) as (H1 & H2 & H3).
  destruct (patch_entry u (local, cl)) as [local1 cl1]. simpl in *.
  destruct (IH local1 cl1) as (I1 & I2 & I3).
  rewrite I1, I2, I3. now repeat split.
Qed.

Lemma patch_members_this d w :
  this (patch_members d w)
  = set_collections (messages (this w))
      (fst (patch_entries (data_users d) (users (this w), client w)))
      (fst (patch_entries (data_left_users d)
              (leftUsers (this w),
               snd (patch_entries (data_users d)
                      (users (this w), client w)))))
      (this w) /\
  client (patch_members d w)
  = snd (patch_entries (data_left_users d)
           (leftUsers (this w),
            snd (patch_entries (data_users d) (users (this w), client w))))
  /\
  runtime (patch_members d w) = runtime w.
Proof.
  unfold patch_members.
  destruct (patch_entries (data_users d) _) as [us cl1]. simpl.
  destruct (patch_entries (data_left_users d) _) as [ls cl2].
  now repeat split.
Qed.

Lemma patch_members_registered d w :
  is_registered (patch_members d w) = is_registered w.
Proof.
  unfold is_registered.
  destruct (patch_members_this d w) as (-> & -> & _). simpl.
  destruct (patch_entries_client_rest (data_left_users d)
              (leftUsers (this w))
              (snd (patch_entries (data_users d) (users (this w), client w))))
    as (-> & _).
  now destruct (patch_entries_client_rest (data_users d) (users (this w))
                  (client w)) as (-> & _).
Qed.

(** *** The loop over the items *)

Lemma patch_item_eq w it :
  this (patch_item w it)
  = set_messages
      (Collection.set (item_id it) (made w it) (messages (this w)))
      (match found w it with
       | Some _ =>
           set_sentMessagesPromises
             (Collection.delete (item_id it) (_sentMessagesPromises (this w)))
             (this w)
       | None => this w
       end) /\
  client (patch_item w it)
  = set_next_message (S (next_message (client w))) (client w) /\
  runtime (patch_item w it)
  = match found w it with
    | Some p => resolve p (Some (made w it)) (runtime w)
    | None => runtime w
    end.
Proof.
  unfold patch_item, new_Message, found, is_registered, made. simpl.
  destruct (Collection.get (id (this w)) (cache_chats (client w)))
    as [[|n]|]; simpl; try now repeat split.
  destruct (Collection.get (item_id it) (_sentMessagesPromises (this w)))
    as [p|]; simpl; now repeat split.
Qed.

Lemma patch_item_frame w it : items_frame w (patch_item w it).
Proof.
  destruct (patch_item_eq w it) as (Ht & Hc & Hr).
  unfold items_frame. rewrite Ht, Hc, Hr.
  destruct (found w it) as [p|]; simpl; unfold resolve;
    rewrite ?settle_timers, ?settle_next_handle; now repeat split.
Qed.

Lemma items_frame_refl w : items_frame w w.
Proof. unfold items_frame. now repeat split. Qed.

Lemma items_frame_trans w1 w2 w3 :
  items_frame w1 w2 -> items_frame w2 w3 -> items_frame w1 w3.
Proof.
  unfold items_frame.
  intros (A1 & A2 & A3 & A4 & A5 & A6 & A7 & A8 & A9 & A10 & A11 & A12
          & A13 & A14)
         (B1 & B2 & B3 & B4 & B5 & B6 & B7 & B8 & B9 & B10 & B11 & B12
          & B13 & B14).
  repeat split; congruence.
Qed.

Lemma patch_items_frame l w : items_frame w (fold_left patch_item l w).
Proof.
  revert w. induction l as [|it l IH]; intros w; [apply items_frame_refl|].
  simpl. eapply items_frame_trans; [apply patch_item_frame|apply IH].
Qed.

Lemma items_frame_registered w w' :
  items_frame w w' -> is_registered w' = is_registered w.
Proof.
  unfold items_frame, is_registered.
  intros (-> & _ & _ & _ & _ & _ & _ & _ & _ & -> & _). reflexivity.
Qed.

Lemma items_frame_id w w' : items_frame w w' -> id (this w') = id (this w).
Proof. now intros (H & _). Qed.

Lemma patch_items_next l w :
  next_message (client (fold_left patch_item l w))
  = next_message (client w) + length l.
Proof.
  revert w. induction l as [|it l IH]; intros w; simpl; [lia|].
  rewrite IH. destruct (patch_item_eq w it) as (_ & -> & _). simpl. lia.
Qed.

(** The messages, their identity left out. *)
Lemma fields_of_set k (m : MessageObj) (c : Collection.t MessageObj) :
  fields_of (Collection.set k m c)
  = Collection.set k (msg_fields m) (fields_of c).
Proof.
  unfold fields_of. induction c as [|[k' m'] c IH]; simpl; [reflexivity|].
  destruct (String.eqb k k'); simpl; [reflexivity|]. now rewrite IH.
Qed.

Lemma fields_of_get k (c : Collection.t MessageObj) :
  Collection.get k (fields_of c) = msg_fields <$> Collection.get k c.
Proof.
  unfold fields_of. induction c as [|[k' m'] c IH]; simpl; [reflexivity|].
  now destruct (String.eqb k k').
Qed.

Lemma fields_of_has k (c : Collection.t MessageObj) :
  Collection.has k (fields_of c) = Collection.has k c.
Proof.
  unfold Collection.has. rewrite fields_of_get.
  now destruct (Collection.get k c).
Qed.

Lemma patch_item_messages w it :
  messages (this (patch_item w it))
  = Collection.set (item_id it) (made w it) (messages (this w)).
Proof.
  destruct (patch_item_eq w it) as (-> & _). now destruct (found w it).
Qed.

Lemma patch_items_fields l w :
  fields_of (messages (this (fold_left patch_item l w)))
  = fold_left (merge_fields (id (this w))) l (fields_of (messages (this w))).
Proof.
  revert w. induction l as [|it l IH]; intros w; [reflexivity|].
  simpl. rewrite IH, (items_frame_id _ _ (patch_item_frame w it)).
  now rewrite patch_item_messages, fields_of_set.
Qed.

Lemma merge_fields_has threadID l (m : Collection.t Message) k :
  Collection.has k (fold_left (merge_fields threadID) l m)
  = bool_decide (k ∈ ids l) || Collection.has k m.
Proof.
  revert m. induction l as [|it l IH]; intros m.
  - reflexivity.
  - cbn [fold_left ids map]. rewrite IH. unfold merge_fields.
    rewrite has_set. fold (ids l). rewrite elem_of_cons_eqb.
    destruct (String.eqb k (item_id it)), (bool_decide (k ∈ ids l));
      reflexivity.
Qed.

(** The resolvers after the loop: those under the identifiers of the items
    are gone when the chat is in the cache of chats; the others stay. *)
Lemma patch_item_resolvers w it k :
  Collection.get k (_sentMessagesPromises (this (patch_item w it)))
  = if is_registered w && String.eqb k (item_id it) then None
    else Collection.get k (_sentMessagesPromises (this w)).
Proof.
  destruct (patch_item_eq w it) as (-> & _). unfold found.
  destruct (is_registered w); simpl; [|reflexivity].
  destruct (String.eqb_spec k (item_id it)) as [->|Hne].
  - destruct (Collection.get (item_id it) (_sentMessagesPromises (this w)))
      as [p|] eqn:E; simpl; [apply get_delete_eq|exact E].
  - destruct (Collection.get (item_id it) (_sentMessagesPromises (this w)));
      simpl; [now apply get_delete_ne|reflexivity].
Qed.

Lemma patch_items_resolvers l w k :
  Collection.get k (_sentMessagesPromises (this (fold_left patch_item l w)))
  = if is_registered w && bool_decide (k ∈ ids l) then None
    else Collection.get k (_sentMessagesPromises (this w)).
Proof.
  revert w. induction l as [|it l IH]; intros w.
  - simpl. now rewrite andb_false_r.
  - cbn [fold_left ids map]. fold (ids l).
    rewrite IH, (items_frame_registered _ _ (patch_item_frame w it)).
    rewrite patch_item_resolvers, elem_of_cons_eqb.
    destruct (is_registered w), (String.eqb k (item_id it)),
      (bool_decide (k ∈ ids l)); reflexivity.
Qed.

(** A merge that finds no resolver leaves the resolvers and the runtime
    alone. *)
Lemma patch_items_quiet l w :
  (forall it, it ∈ l -> found w it = None) ->
  _sentMessagesPromises (this (fold_left patch_item l w))
  = _sentMessagesPromises (this w) /\
  runtime (fold_left patch_item l w) = runtime w.
Proof.
  revert w. induction l as [|it l IH]; intros w Hall; [now split|].
  simpl.
  assert (Hit : found w it = None) by (apply Hall; left).
  destruct (patch_item_eq w it) as (Ht & _ & Hr). rewrite Hit in Ht, Hr.
  destruct (IH (patch_item w it)) as (I1 & I2).
  { intros it' Hin. unfold found.
    rewrite (items_frame_registered _ _ (patch_item_frame w it)), Ht.
    simpl. apply Hall. now right. }
  rewrite I1, I2, Ht, Hr. now split.
Qed.

(** A promise whose resolver is not found by the loop is left alone. *)
Lemma patch_items_promise l w p :
  (forall it, it ∈ l -> found w it <> Some p) ->
  promises (runtime (fold_left patch_item l w)) !! p
  = promises (runtime w) !! p /\
  resolve_calls p (fold_left patch_item l w) = resolve_calls p w.
Proof.
  revert w. induction l as [|it l IH]; intros w Hall; [now split|].
  simpl.
  assert (Hit : found w it <> Some p) by (apply Hall; left).
  destruct (IH (patch_item w it)) as (I1 & I2).
  { intros it' Hin. unfold found.
    rewrite (items_frame_registered _ _ (patch_item_frame w it)).
    rewrite patch_item_resolvers.
    specialize (Hall it' (list_elem_of_further _ _ _ Hin)).
    unfold found in Hall.
    destruct (is_registered w); simpl; [|congruence].
    now destruct (String.eqb (item_id it') (item_id it)). }
  rewrite I1, I2. unfold resolve_calls.
  destruct (patch_item_eq w it) as (_ & _ & ->).
  destruct (found w it) as [q|]; [|now split].
  destruct (resolve_other p q (Some (made w it)) (runtime w)) as (R1 & R2);
    [congruence|].
  split; [exact R1|]. simpl. now rewrite R2.
Qed.

End PatchFacts.

(** ** What a merge does *)
Section PatchWhole.
Context `{Ext : Externals}.
Implicit Types (d : Data) (w : World) (it : Item) (l : list Item)
               (k : string) (p : promise).

Lemma found_members d w it : found (patch_members d w) it = found w it.
Proof.
  unfold found. rewrite patch_members_registered.
  now destruct (patch_members_this d w) as (-> & _).
Qed.

Lemma patch_session d w :
  id (this (_patch d w)) = id (this w) /\
  typing (this (_patch d w)) = typing (this w) /\
  _disableTypingOnSend (this (_patch d w)) = _disableTypingOnSend (this w) /\
  _stopTypingTimeout (this (_patch d w)) = _stopTypingTimeout (this w) /\
  _keepTypingAliveInterval (this (_patch d w))
    = _keepTypingAliveInterval (this w).
Proof.
  unfold _patch. simpl.
  destruct (patch_items_frame (data_items d) (patch_members d w))
    as (-> & _ & _ & -> & -> & -> & -> & _).
  destruct (patch_members_this d w) as (-> & _). now repeat split.
Qed.

Lemma patch_attributes d w : attributes (this (_patch d w)) = attributes_of d.
Proof. reflexivity. Qed.

Lemma patch_users d w :
  users (this (_patch d w))
  = fst (patch_entries (data_users d) (users (this w), client w)).
Proof.
  unfold _patch. simpl.
  destruct (patch_items_frame (data_items d) (patch_members d w))
    as (_ & -> & _).
  now destruct (patch_members_this d w) as (-> & _).
Qed.

Lemma patch_leftUsers d w :
  leftUsers (this (_patch d w))
  = fst (patch_entries (data_left_users d)
           (leftUsers (this w),
            snd (patch_entries (data_users d) (users (this w), client w)))).
Proof.
  unfold _patch. simpl.
  destruct (patch_items_frame (data_items d) (patch_members d w))
    as (_ & _ & -> & _).
  now destruct (patch_members_this d w) as (-> & _).
Qed.

Lemma patch_cache_users d w :
  cache_users (client (_patch d w))
  = cache_users
      (snd (patch_entries (data_left_users d)
              (leftUsers (this w),
               snd (patch_entries (data_users d)
                      (users (this w), client w))))).
Proof.
  unfold _patch. simpl.
  destruct (patch_items_frame (data_items d) (patch_members d w))
    as (_ & _ & _ & _ & _ & _ & _ & _ & -> & _).
  now destruct (patch_members_this d w) as (_ & -> & _).
Qed.

Lemma patch_heap d w :
  heap (client (_patch d w))
  = heap
      (snd (patch_entries (data_left_users d)
              (leftUsers (this w),
               snd (patch_entries (data_users d)
                      (users (this w), client w))))).
Proof.
  unfold _patch. simpl.
  destruct (patch_items_frame (data_items d) (patch_members d w))
    as (_ & _ & _ & _ & _ & _ & _ & _ & _ & _ & _ & -> & _).
  now destruct (patch_members_this d w) as (_ & -> & _).
Qed.

Lemma patch_chats d w :
  cache_chats (client (_patch d w)) = cache_chats (client w) /\
  cache_pendingChats (client (_patch d w)) = cache_pendingChats (client w).
Proof.
  unfold _patch. simpl.
  destruct (patch_items_frame (data_items d) (patch_members d w))
    as (_ & _ & _ & _ & _ & _ & _ & _ & _ & -> & -> & _).
  destruct (patch_members_this d w) as (_ & -> & _).
  destruct (patch_entries_client_rest (data_left_users d)
              (leftUsers (this w))
              (snd (patch_entries (data_users d) (users (this w), client w))))
    as (-> & -> & _).
  now destruct (patch_entries_client_rest (data_users d) (users (this w))
                  (client w)) as (-> & -> & _).
Qed.

Lemma patch_registered d w : is_registered (_patch d w) = is_registered w.
Proof.
  unfold is_registered. destruct (patch_session d w) as (-> & _).
  now destruct (patch_chats d w) as (-> & _).
Qed.


Lemma patch_fields d w :
  fields_of (messages (this (_patch d w)))
  = fold_left (merge_fields (id (this w))) (data_items d)
      (fields_of (messages (this w))).
Proof.
  unfold _patch. simpl. rewrite patch_items_fields.
  now destruct (patch_members_this d w) as (-> & _).
Qed.

Lemma patch_has d w k :
  Collection.has k (messages (this (_patch d w)))
  = bool_decide (k ∈ ids (data_items d))
    || Collection.has k (messages (this w)).
Proof.
  now rewrite <- fields_of_has, patch_fields, merge_fields_has,
    fields_of_has.
Qed.

Lemma patch_resolvers d w k :
  Collection.get k (_sentMessagesPromises (this (_patch d w)))
  = if is_registered w && bool_decide (k ∈ ids (data_items d)) then None
    else Collection.get k (_sentMessagesPromises (this w)).
Proof.
  unfold _patch. simpl.
  rewrite patch_items_resolvers, patch_members_registered.
  now destruct (patch_members_this d w) as (-> & _).
Qed.

(** A merge that finds no resolver: the chat is not in the cache of chats,
    or no item has a resolver under its identifier. *)
Lemma patch_quiet d w :
  (forall it, it ∈ data_items d -> found w it = None) ->
  _sentMessagesPromises (this (_patch d w)) = _sentMessagesPromises (this w)
  /\ runtime (_patch d w) = runtime w.
Proof.
  intros Hall. unfold _patch. simpl.
  destruct (patch_items_quiet (data_items d) (patch_members d w))
    as (-> & ->).
  { intros it Hin. rewrite found_members. now apply Hall. }
  now destruct (patch_members_this d w) as (-> & _ & ->).
Qed.

Lemma patch_promise d w p :
  (forall it, it ∈ data_items d -> found w it <> Some p) ->
  promises (runtime (_patch d w)) !! p = promises (runtime w) !! p /\
  resolve_calls p (_patch d w) = resolve_calls p w.
Proof.
  intros Hall.
  destruct (patch_items_promise (data_items d) (patch_members d w) p)
    as (H1 & H2).
  { intros it Hin. rewrite found_members. now apply Hall. }
  unfold _patch, resolve_calls in *. simpl. rewrite H1, H2.
  now destruct (patch_members_this d w) as (_ & _ & ->).
Qed.

End PatchWhole.
(** ** The message a merge leaves under a key, and the resolver it calls *)
Section PatchGet.
Context `{Ext : Externals}.
Implicit Types (d : Data) (w : World) (it : Item) (l : list Item)
               (k : string) (p : promise).

Lemma last_item_snoc k l it :
  last_item k (l ++ [it])
  = if String.eqb k (item_id it) then Some it else last_item k l.
Proof. unfold last_item. now rewrite rev_app_distr. Qed.

(** The loop over the items: under a key that an item carries, the object
    constructed for the last such item; under another key, the object that
    was there. *)
Lemma patch_items_get l w k :
  match last_item k l with
  | Some it =>
      exists m,
        Collection.get k (messages (this (fold_left patch_item l w)))
        = Some m /\
        msg_fields m = Message_new (id (this w)) it /\
        next_message (client w) <= msg_ref m /\
        msg_ref m < next_message (client (fold_left patch_item l w))
  | None =>
      Collection.get k (messages (this (fold_left patch_item l w)))
      = Collection.get k (messages (this w))
  end.
Proof.
  induction l as [|it l IH] using rev_ind; [reflexivity|].
  rewrite fold_left_app, last_item_snoc. cbn [fold_left].
  rewrite patch_item_messages.
  destruct (String.eqb_spec k (item_id it)) as [->|Hne].
  - exists (made (fold_left patch_item l w) it). rewrite get_set_eq.
    split; [reflexivity|]. simpl.
    rewrite (items_frame_id _ _ (patch_items_frame l w)).
    destruct (patch_item_eq (fold_left patch_item l w) it) as (_ & -> & _).
    simpl. rewrite patch_items_next.
    split; [reflexivity|lia].
  - rewrite get_set_ne by exact Hne.
    destruct (last_item k l) as [it'|]; [|exact IH].
    destruct IH as (m & I1 & I2 & I3 & I4). exists m.
    destruct (patch_item_eq (fold_left patch_item l w) it) as (_ & -> & _).
    simpl. repeat split; auto.
Qed.

Lemma patch_get d w k :
  match last_item k (data_items d) with
  | Some it =>
      exists m,
        Collection.get k (messages (this (_patch d w))) = Some m /\
        msg_fields m = Message_new (id (this w)) it /\
        next_message (client w) <= msg_ref m /\
        msg_ref m < next_message (client (_patch d w))
  | None =>
      Collection.get k (messages (this (_patch d w)))
      = Collection.get k (messages (this w))
  end.
Proof.
  pose proof (patch_items_get (data_items d) (patch_members d w) k) as H.
  destruct (patch_members_this d w) as (Ht & Hc & _).
  assert (Hid : id (this (patch_members d w)) = id (this w))
    by (now rewrite Ht).
  assert (Hm : messages (this (patch_members d w)) = messages (this w))
    by (now rewrite Ht).
  assert (Hn : next_message (client (patch_members d w))
               = next_message (client w)).
  { rewrite Hc.
    destruct (patch_entries_client_rest (data_left_users d)
                (leftUsers (this w))
                (snd (patch_entries (data_users d)
                        (users (this w), client w)))) as (_ & _ & ->).
    apply patch_entries_client_rest. }
  rewrite Hid, Hm, Hn in H. exact H.
Qed.



End PatchGet.
(** ** Merging a snapshot *)
Section Merge.
Context `{Ext : Externals}.
Implicit Types (d : Data) (w : World).

(** C7. Merging is idempotent on the scalar attributes: after [_patch d]
    the attributes [adminUserIDs], [lastActivityAt], [muted], [isPin],
    [named], [pending], [isGroup] and [type] are those of [d], and merging
    [d] a second time leaves them as the first merge left them. *)
Theorem patch_attributes_idempotent d w :
  attributes (this (_patch d w)) = attributes_of d /\
  attributes (this (_patch d (_patch d w))) = attributes (this (_patch d w)).
Proof. split; reflexivity. Qed.


(** C2 (as the code has it). A merge adds the listed users to [users] and
    the listed departed users to [leftUsers] and removes nothing from
    either: after the merge a key is in [users] exactly when it was there
    before or [data.users] lists it, and in [leftUsers] exactly when it was
    there before or [data.left_users] lists it. *)
Theorem patch_membership d w k :
  Collection.has k (users (this (_patch d w)))
  = bool_decide (k ∈ map pk (data_users d))
    || Collection.has k (users (this w)) /\
  Collection.has k (leftUsers (this (_patch d w)))
  = bool_decide (k ∈ map pk (data_left_users d))
    || Collection.has k (leftUsers (this w)).
Proof.
  split.
  - now rewrite patch_users, patch_entries_has.
  - rewrite patch_leftUsers.
    destruct (patch_entries (data_users d) _) as [us cl1]; simpl.
    apply patch_entries_has.
Qed.

End Merge.


(** C2 (as stated) fails: the thread [Demo.departed] is reached by the
    constructor and one merge, and user ["1"] is both in [users] and in
    [leftUsers]. *)
Lemma member_and_departed :
  reachable Demo.departed /\ ~ members_disjoint Demo.departed.
Proof.
  split.
  - apply reachable_patch, reachable_new.
  - intros H. apply (H "1"). split; reflexivity.
Qed.

(** ** Users are shared with the cache *)
Section SharedUsers.
Context `{Ext : Externals}.
Implicit Types (u : UserRecord) (local : Collection.t ref) (cl : Client)
               (o : ref) (k : string).

Lemma patch_entry_present u local cl o :
  Collection.get (pk u) (cache_users cl) = Some o ->
  patch_entry u (local, cl)
  = (Collection.set (pk u) o local,
     set_heap (alter (User_patch u) o (heap cl)) cl).
Proof. intros H. unfold patch_entry. now rewrite H, get_set_eq. Qed.

Lemma patch_entry_absent u local cl :
  Collection.get (pk u) (cache_users cl) = None ->
  patch_entry u (local, cl)
  = (Collection.set (pk u) (length (heap cl)) local,
     set_cache_users
       (Collection.set (pk u) (length (heap cl)) (cache_users cl))
       (set_heap (heap cl ++ [User_new u]) cl)).
Proof. intros H. unfold patch_entry. now rewrite H, get_set_eq. Qed.

(** The cache never replaces the object it holds for a key. *)
Lemma patch_entry_cache_keeps u local cl k o :
  Collection.get k (cache_users cl) = Some o ->
  Collection.get k (cache_users (snd (patch_entry u (local, cl)))) = Some o.
Proof.
  intros Hk.
  destruct (Collection.get (pk u) (cache_users cl)) as [o'|] eqn:E.
  - now rewrite (patch_entry_present _ _ _ _ E).
  - rewrite (patch_entry_absent _ _ _ E). simpl.
    rewrite get_set_ne; [exact Hk|]. intros ->. congruence.
Qed.

Lemma patch_entries_cache_keeps l local cl k o :
  Collection.get k (cache_users cl) = Some o ->
  Collection.get k (cache_users (snd (patch_entries l (local, cl))))
  = Some o.
Proof.
  revert local cl. induction l as [|u l IH]; intros local cl Hk; [exact Hk|].
  change (patch_entries (u :: l) (local, cl))
    with (patch_entries l (patch_entry u (local, cl))).
  pose proof (patch_entry_cache_keeps u local cl k o Hk) as H1.
  destruct (patch_entry u (local, cl)) as [local1 cl1]. now apply IH.
Qed.

(** After an entry is merged, its key names one object, in the local
    collection and in the cache. *)
Lemma patch_entry_agree u local cl :
  exists o,
    Collection.get (pk u) (fst (patch_entry u (local, cl))) = Some o /\
    Collection.get (pk u) (cache_users (snd (patch_entry u (local, cl))))
    = Some o.
Proof.
  destruct (Collection.get (pk u) (cache_users cl)) as [o|] eqn:E.
  - rewrite (patch_entry_present _ _ _ _ E). exists o. simpl.
    now rewrite get_set_eq.
  - rewrite (patch_entry_absent _ _ _ E). exists (length (heap cl)). simpl.
    now rewrite !get_set_eq.
Qed.

Lemma patch_entry_agree_keeps u local cl k o :
  Collection.get k local = Some o ->
  Collection.get k (cache_users cl) = Some o ->
  Collection.get k (fst (patch_entry u (local, cl))) = Some o.
Proof.
  intros Hl Hc.
  destruct (String.eqb_spec k (pk u)) as [->|Hne].
  - rewrite (patch_entry_present _ _ _ _ Hc). simpl. apply get_set_eq.
  - destruct (Collection.get (pk u) (cache_users cl)) as [o'|] eqn:E.
    + rewrite (patch_entry_present _ _ _ _ E). simpl.
      now rewrite get_set_ne.
    + rewrite (patch_entry_absent _ _ _ E). simpl. now rewrite get_set_ne.
Qed.

Lemma patch_entries_agree_keeps l local cl k o :
  Collection.get k local = Some o ->
  Collection.get k (cache_users cl) = Some o ->
  Collection.get k (fst (patch_entries l (local, cl))) = Some o /\
  Collection.get k (cache_users (snd (patch_entries l (local, cl))))
  = Some o.
Proof.
  intros Hl Hc. split; [|now apply patch_entries_cache_keeps].
  revert local cl Hl Hc. induction l as [|u l IH]; intros local cl Hl Hc;
    [exact Hl|].
  change (patch_entries (u :: l) (local, cl))
    with (patch_entries l (patch_entry u (local, cl))).
  pose proof (patch_entry_agree_keeps u local cl k o Hl Hc) as H1.
  pose proof (patch_entry_cache_keeps u local cl k o Hc) as H2.
  destruct (patch_entry u (local, cl)) as [local1 cl1]. now apply IH.
Qed.

Lemma patch_entries_agree l local cl u :
  u ∈ l ->
  exists o,
    Collection.get (pk u) (fst (patch_entries l (local, cl))) = Some o /\
    Collection.get (pk u) (cache_users (snd (patch_entries l (local, cl))))
    = Some o.
Proof.
  revert local cl. induction l as [|u0 l IH]; intros local cl Hin.
  - inversion Hin.
  - change (patch_entries (u0 :: l) (local, cl))
      with (patch_entries l (patch_entry u0 (local, cl))).
    apply elem_of_cons in Hin as [->|Hin].
    + destruct (patch_entry_agree u0 local cl) as (o & H1 & H2).
      destruct (patch_entry u0 (local, cl)) as [local1 cl1].
      exists o. now apply patch_entries_agree_keeps.
    + destruct (patch_entry u0 (local, cl)) as [local1 cl1]. now apply IH.
Qed.

End SharedUsers.

(** ** How many User objects a merge constructs *)
Section NewUsers.
Context `{Ext : Externals}.
Implicit Types (u : UserRecord) (local : Collection.t ref) (cl : Client).

Lemma remove_dups_cons_length (x : string) (L : list string) :
  length (remove_dups (x :: L))
  = S (length (remove_dups (filter (fun k => k <> x) L))).
Proof.
  change (S (length (remove_dups (filter (fun k => k <> x) L))))
    with (length (x :: remove_dups (filter (fun k => k <> x) L))).
  apply Permutation_length, NoDup_Permutation.
  - apply NoDup_remove_dups.
  - apply NoDup_cons. split; [|apply NoDup_remove_dups].
    rewrite elem_of_remove_dups, list_elem_of_filter. tauto.
  - intros y.
    rewrite elem_of_remove_dups, !elem_of_cons, elem_of_remove_dups,
      list_elem_of_filter.
    destruct (decide (y = x)); tauto.
Qed.

Lemma filter_unknown_set (cache : Collection.t ref) x o (L : list string) :
  filter (fun k => Collection.has k (Collection.set x o cache) = false) L
  = filter (fun k => k <> x)
      (filter (fun k => Collection.has k cache = false) L).
Proof.
  induction L as [|y L IH]; [reflexivity|].
  rewrite !filter_cons, IH, has_set.
  destruct (String.eqb_spec y x) as [->|Hne]; simpl.
  - destruct (decide (true = false)); [discriminate|].
    destruct (decide (Collection.has x cache = false)); [|reflexivity].
    rewrite filter_cons. destruct (decide (x <> x)); [congruence|reflexivity].
  - destruct (decide (Collection.has y cache = false)); [|reflexivity].
    rewrite filter_cons. destruct (decide (y <> x)); [reflexivity|tauto].
Qed.

Lemma patch_entries_heap_length l local cl :
  length (heap (snd (patch_entries l (local, cl))))
  = length (heap cl) + length (unknown_keys (cache_users cl) l).
Proof.
  revert local cl. induction l as [|u l IH]; intros local cl.
  - simpl. lia.
  - change (patch_entries (u :: l) (local, cl))
      with (patch_entries l (patch_entry u (local, cl))).
    unfold unknown_keys. cbn [map]. rewrite filter_cons.
    destruct (Collection.get (pk u) (cache_users cl)) as [o|] eqn:E.
    + assert (Hh : Collection.has (pk u) (cache_users cl) = true)
        by (unfold Collection.has; now rewrite E).
      rewrite (patch_entry_present _ _ _ _ E), IH.
      cbn [cache_users heap set_heap]. rewrite length_alter, Hh.
      destruct (decide (true = false)); [discriminate|].
      reflexivity.
    + assert (Hh : Collection.has (pk u) (cache_users cl) = false)
        by (unfold Collection.has; now rewrite E).
      rewrite (patch_entry_absent _ _ _ E), IH.
      cbn [cache_users heap set_heap set_cache_users].
      rewrite length_app, Hh. cbn [length]. unfold unknown_keys.
      rewrite filter_unknown_set.
      destruct (decide (false = false)); [|congruence].
      rewrite remove_dups_cons_length. lia.
Qed.

(** What happens to the client does not depend on the local collection. *)
Lemma patch_entries_client l local local' cl :
  snd (patch_entries l (local, cl)) = snd (patch_entries l (local', cl)).
Proof.
  revert local local' cl. induction l as [|u l IH]; intros local local' cl;
    [reflexivity|].
  change (patch_entries (u :: l) (local, cl))
    with (patch_entries l (patch_entry u (local, cl))).
  change (patch_entries (u :: l) (local', cl))
    with (patch_entries l (patch_entry u (local', cl))).
  destruct (Collection.get (pk u) (cache_users cl)) as [o|] eqn:E.
  - rewrite !(patch_entry_present _ _ _ _ E). apply IH.
  - rewrite !(patch_entry_absent _ _ _ E). apply IH.
Qed.

Lemma patch_entries_app l1 l2 local1 local2 cl :
  snd (patch_entries l2 (local2, snd (patch_entries l1 (local1, cl))))
  = snd (patch_entries (l1 ++ l2) (local2, cl)).
Proof.
  unfold patch_entries at 3. rewrite fold_left_app.
  fold (patch_entries l1 (local2, cl)).
  destruct (patch_entries l1 (local2, cl)) as [loc cl1] eqn:E.
  fold (patch_entries l2 (loc, cl1)).
  rewrite (patch_entries_client l1 local1 local2 cl), E. simpl.
  apply patch_entries_client.
Qed.

End NewUsers.

Section PatchedUsers.
Context `{Ext : Externals}.
Implicit Types (u : UserRecord) (local : Collection.t ref) (cl : Client)
               (o : ref).

Lemma patches_for_set cache k n o (l : list UserRecord) :
  Collection.get k cache = None -> n <> o ->
  patches_for (Collection.set k n cache) o l = patches_for cache o l.
Proof.
  intros Hk Hn. unfold patches_for. apply List.filter_ext. intros u.
  destruct (String.eqb_spec (pk u) k) as [->|Hne].
  - rewrite get_set_eq, Hk. now apply Nat.eqb_neq.
  - now rewrite get_set_ne.
Qed.

(** The fields of an object that was there before the entries are merged:
    patched with the entries the cache maps to it, in their order. *)
Lemma patch_entries_patches l local cl o :
  o < length (heap cl) ->
  heap (snd (patch_entries l (local, cl))) !! o
  = apply_patches (patches_for (cache_users cl) o l) <$> heap cl !! o.
Proof.
  revert local cl. induction l as [|u l IH]; intros local cl Ho.
  - simpl. now destruct (heap cl !! o).
  - change (patch_entries (u :: l) (local, cl))
      with (patch_entries l (patch_entry u (local, cl))).
    unfold patches_for. cbn [List.filter].
    fold (patches_for (cache_users cl) o l).
    destruct (Collection.get (pk u) (cache_users cl)) as [o'|] eqn:E.
    + rewrite (patch_entry_present _ _ _ _ E), IH
        by (simpl; now rewrite length_alter).
      simpl. destruct (Nat.eqb_spec o' o) as [->|Hne].
      * rewrite list_lookup_alter_eq.
        generalize (patches_for (cache_users cl) o l). intros ps.
        match goal with |- _ <$> (_ <$> ?x) = _ <$> ?y =>
          change y with x; destruct x; reflexivity end.
      * now rewrite list_lookup_alter_ne.
    + rewrite (patch_entry_absent _ _ _ E), IH
        by (simpl; rewrite length_app; simpl; lia).
      simpl. rewrite patches_for_set by (trivial; lia).
      now rewrite lookup_app_l.
Qed.

End PatchedUsers.

Section SharedUsersTheorem.
Context `{Ext : Externals}.

(** C8. Users are shared with the cache.  One entry of [data.users] or
    [data.left_users]: when the cache holds an object for its key, the
    local collection gets that very object, the cache is left alone, no
    User is constructed and the object is patched with the entry, no other
    object is touched; when the cache holds none, one User is constructed
    from the entry and that one object is put in the local collection and
    in the cache.  The whole merge does this for the entries of
    [data.users] in their order and then for those of [data.left_users],
    and nothing else in it touches the two collections, the cache of users
    or a User object.  So every listed user names one object in the local
    collection and in the cache, the cache keeps the object it had for
    every key, and the number of Users constructed is the number of listed
    keys the cache did not hold.  A User object that was there before the
    merge has, after it, the fields it had, patched in turn with every
    listed entry whose key the cache held for that object. *)
Theorem patch_shares_users d w :
  (forall u local cl,
     let st := patch_entry u (local, cl) in
     match Collection.get (pk u) (cache_users cl) with
     | Some o =>
         Collection.get (pk u) (fst st) = Some o /\
         cache_users (snd st) = cache_users cl /\
         length (heap (snd st)) = length (heap cl) /\
         heap (snd st) !! o = User_patch u <$> heap cl !! o /\
         (forall o', o' <> o -> heap (snd st) !! o' = heap cl !! o')
     | None =>
         Collection.get (pk u) (fst st) = Some (length (heap cl)) /\
         Collection.get (pk u) (cache_users (snd st))
         = Some (length (heap cl)) /\
         heap (snd st) = (heap cl ++ [User_new u])%list
     end) /\
  (let st1 := patch_entries (data_users d) (users (this w), client w) in
   let st2 := patch_entries (data_left_users d)
                (leftUsers (this w), snd st1) in
   users (this (_patch d w)) = fst st1 /\
   leftUsers (this (_patch d w)) = fst st2 /\
   cache_users (client (_patch d w)) = cache_users (snd st2) /\
   heap (client (_patch d w)) = heap (snd st2)) /\
  (forall u, u ∈ data_users d ->
     exists o,
       Collection.get (pk u) (users (this (_patch d w))) = Some o /\
       Collection.get (pk u) (cache_users (client (_patch d w))) = Some o) /\
  (forall u, u ∈ data_left_users d ->
     exists o,
       Collection.get (pk u) (leftUsers (this (_patch d w))) = Some o /\
       Collection.get (pk u) (cache_users (client (_patch d w))) = Some o) /\
  (forall k o,
     Collection.get k (cache_users (client w)) = Some o ->
     Collection.get k (cache_users (client (_patch d w))) = Some o) /\
  length (heap (client (_patch d w)))
  = length (heap (client w))
    + length (unknown_keys (cache_users (client w))
                (data_users d ++ data_left_users d)) /\
  (forall o,
     o < length (heap (client w)) ->
     heap (client (_patch d w)) !! o
     = apply_patches
         (patches_for (cache_users (client w)) o
            (data_users d ++ data_left_users d))
       <$> heap (client w) !! o).
Proof.
  split; [|split; [|split; [|split; [|split; [|split]]]]].
  - intros u local cl st. subst st.
    destruct (Collection.get (pk u) (cache_users cl)) as [o|] eqn:E.
    + rewrite (patch_entry_present _ _ _ _ E). simpl.
      rewrite get_set_eq, length_alter, list_lookup_alter_eq.
      repeat split; auto.
      intros o' Hne. now apply list_lookup_alter_ne.
    + rewrite (patch_entry_absent _ _ _ E). simpl.
      now rewrite !get_set_eq.
  - intros st1 st2. subst st1 st2.
    split; [apply patch_users|]. split; [apply patch_leftUsers|].
    split; [apply patch_cache_users|apply patch_heap].
  - intros u Hu. rewrite patch_users, patch_cache_users.
    destruct (patch_entries_agree _ (users (this w)) (client w) u Hu)
      as (o & H1 & H2).
    exists o. split; [exact H1|].
    destruct (patch_entries (data_users d) _) as [us cl1]. simpl in *.
    now apply patch_entries_cache_keeps.
  - intros u Hu. rewrite patch_leftUsers, patch_cache_users.
    apply patch_entries_agree, Hu.
  - intros k o Hk. rewrite patch_cache_users.
    apply patch_entries_cache_keeps.
    pose proof (patch_entries_cache_keeps (data_users d) (users (this w))
                  (client w) k o Hk) as H1.
    exact H1.
  - rewrite patch_heap, patch_entries_app.
    apply patch_entries_heap_length.
  - intros o Ho.
    rewrite patch_heap, (patch_entries_app _ _ _ (leftUsers (this w))).
    now apply patch_entries_patches.
Qed.

End SharedUsersTheorem.

(** [Demo.fresh] holds [Demo.alice]; a second snapshot lists her under a
    new name: her key names one object in [users] and in the cache. *)
Lemma patch_shares_users_witness :
  Demo.alice' ∈ data_users (Demo.snapshot [Demo.alice'] [] []) /\
  exists o,
    Collection.get "1"
      (users (this (_patch (Demo.snapshot [Demo.alice'] [] []) Demo.fresh)))
    = Some o /\
    Collection.get "1"
      (cache_users
         (client (_patch (Demo.snapshot [Demo.alice'] [] []) Demo.fresh)))
    = Some o.
Proof.
  split; [left|].
  apply (proj1 (proj2 (proj2
           (patch_shares_users (Demo.snapshot [Demo.alice'] [] [])
              Demo.fresh))) Demo.alice').
  left.
Defined.

(** The object is the one the cache held, with the new name. *)
Example patch_renames_shared_user :
  heap (client (_patch (Demo.snapshot [Demo.alice'] [] []) Demo.fresh))
  = ["alice.b"] /\
  heap (client (_patch (Demo.snapshot [] [Demo.bob] []) Demo.fresh))
  = ["alice"; "bob"].
Proof. split; reflexivity. Qed.

(** ** [approve] *)
Section Approve.
Context `{Ext : Externals}.

(** C9 (as the code has it). [approve] sets [pending] to false and calls
    the network operation at once.  When that call succeeds, the rest of
    the method makes the thread a key of the chats cache, removes it from
    the pending chats and emits one [messageCreate] event with
    [messages.first()], the oldest message, or nothing when there is no
    message.  When the call fails nothing else is done. *)
Theorem approve_steps w :
  (pending (this (approve_begin w)) = false /\
   client (approve_begin w) = client w /\
   trace (runtime (approve_begin w))
   = (trace (runtime w) ++ [NetApprove (id (this w))])%list) /\
  (Collection.has (id (this w))
     (cache_chats (client (approve_settled (NetOk tt) w))) = true /\
   Collection.has (id (this w))
     (cache_pendingChats (client (approve_settled (NetOk tt) w))) = false /\
   this (approve_settled (NetOk tt) w) = this w /\
   trace (runtime (approve_settled (NetOk tt) w))
   = (trace (runtime w)
      ++ [Emit "messageCreate" (Collection.first (messages (this w)))])%list)
  /\
  (forall e, approve_settled (NetFailed e) w = w).
Proof.
  split; [|split].
  - repeat split.
  - simpl. repeat split.
    + destruct (Collection.has (id (this w)) (cache_chats (client w)))
        eqn:E; simpl; [exact E|].
      now rewrite has_set, String.eqb_refl.
    + apply has_delete_eq.
  - reflexivity.
Qed.

End Approve.

(** C9 (as stated) fails: the network call of [approve] fails, the thread is
    not in the chats cache, is still in the pending chats, and no event was
    emitted. *)
Lemma approve_failed_does_nothing :
  Collection.has "t1" (cache_chats (client Demo.approve_failed)) = false /\
  Collection.has "t1" (cache_pendingChats (client Demo.approve_failed)) = true
  /\ List.filter is_emit (trace (runtime Demo.approve_failed)) = [] /\
  pending (this Demo.approve_failed) = false.
Proof. repeat split. Qed.

(** ** Typing *)
Section Typing.
Context `{Ext : Externals}.
Implicit Types (w : World) (o : TypingOptions).

Lemma scheduled_clearTimer h r : scheduled h (clearTimer h r) = false.
Proof.
  unfold scheduled, clearTimer. simpl. apply bool_decide_false.
  intros H. apply list_elem_of_fmap in H as (t & Ht & Hin).
  apply list_elem_of_filter in Hin as [Hne _]. congruence.
Qed.

Lemma scheduled_clearTimer_ne h h' r :
  h' <> h -> scheduled h' (clearTimer h r) = scheduled h' r.
Proof.
  intros Hne. unfold scheduled, clearTimer. simpl. apply bool_decide_ext.
  rewrite !list_elem_of_fmap. split.
  - intros (t & Ht & Hin). apply list_elem_of_filter in Hin as [_ Hin]. eauto.
  - intros (t & Ht & Hin). exists t. split; [exact Ht|].
    apply list_elem_of_filter. split; [congruence|exact Hin].
Qed.

(** C5 (what the code does). [stopTyping] after [startTyping]: the
    repeating timer made by [startTyping] is cancelled, [typing] is false
    and one is-inactive signal is sent, but the one-shot timer made by
    [startTyping] is still scheduled, and its handle is still stored. *)
Theorem stopTyping_keeps_timeout o w :
  let t := next_handle (runtime w) in
  let w1 := startTyping_resume o w in
  let w2 := stopTyping w1 in
  scheduled t (runtime w2) = true /\
  scheduled (S t) (runtime w2) = false /\
  _stopTypingTimeout (this w2) = Some t /\
  typing (this w2) = false /\
  trace (runtime w2)
  = (trace (runtime w1) ++ [NetIndicateActivity (id (this w)) false])%list.
Proof.
  intros t w1 w2.
  assert (E : forall h, scheduled h (runtime w2)
                        = scheduled h (clearTimer (S t) (runtime w1)))
    by reflexivity.
  split; [|split; [|repeat split]].
  - rewrite E, scheduled_clearTimer_ne by lia.
    apply bool_decide_true. subst w1. cbn.
    rewrite <- app_assoc, map_app, elem_of_app. right. left.
  - rewrite E. apply scheduled_clearTimer.
Qed.

(** C6 (as the code has it). [startTyping] cancels nothing: the part
    before the [await] leaves the timers alone, the part after it adds one
    one-shot timer and one repeating timer to the timers that are
    scheduled, and stores the two new handles and the flag over the old
    ones. *)
Theorem startTyping_stacks o w :
  let t := next_handle (runtime w) in
  let w1 := startTyping_settled o (NetOk tt) w in
  timers (runtime (startTyping_begin w)) = timers (runtime w) /\
  timers (runtime w1)
  = (timers (runtime w)
     ++ [mkTimer t OneShot (timeout_of (duration o));
         mkTimer (S t) Repeating 9000%Z])%list /\
  count_kind OneShot (runtime w1) = S (count_kind OneShot (runtime w)) /\
  count_kind Repeating (runtime w1) = S (count_kind Repeating (runtime w)) /\
  _stopTypingTimeout (this w1) = Some t /\
  _keepTypingAliveInterval (this w1) = Some (S t) /\
  _disableTypingOnSend (this w1)
  = Some (match disableOnSend o with Some b => b | None => true end).
Proof.
  simpl. repeat split.
  - now rewrite <- app_assoc.
  - unfold count_kind. simpl. rewrite <- app_assoc, List.filter_app.
    rewrite length_app. simpl. lia.
  - unfold count_kind. simpl. rewrite <- app_assoc, List.filter_app.
    rewrite length_app. simpl. lia.
Qed.

End Typing.

(** [startTyping()] then [stopTyping()] on [Demo.fresh]: the timer that calls
    [stopTyping] after ten seconds is what remains. *)
Example stop_after_start :
  timers (runtime (stopTyping (Demo.startTyping Demo.fresh)))
  = [mkTimer 1 OneShot 10000%Z].
Proof. reflexivity. Qed.

(** When that timer fires, [stopTyping] runs a second time. *)
Example stop_after_start_fires :
  trace (runtime (fire 1 (stopTyping (Demo.startTyping Demo.fresh))))
  = [NetIndicateActivity "t1" true; NetIndicateActivity "t1" false;
     NetIndicateActivity "t1" false].
Proof. reflexivity. Qed.

(** A second session, started after the stop, is ended by the timer of the
    first one: handles 3 and 4 are the timers of the second session. *)
Example stale_timeout_ends_next_session :
  let w := fire 1 (Demo.startTyping
                     (stopTyping (Demo.startTyping Demo.fresh))) in
  typing (this w) = false /\
  timers (runtime w) = [mkTimer 3 OneShot 10000%Z].
Proof. split; reflexivity. Qed.

(** C6 (as stated) fails: [startTyping()] twice on [Demo.fresh] leaves two
    one-shot timers and two repeating timers scheduled. *)
Lemma startTyping_twice :
  count_kind OneShot
    (runtime (Demo.startTyping (Demo.startTyping Demo.fresh))) = 2 /\
  count_kind Repeating
    (runtime (Demo.startTyping (Demo.startTyping Demo.fresh))) = 2 /\
  typing (this (Demo.startTyping Demo.fresh)) = true.
Proof. repeat split. Qed.

(** ** Sending *)
Section Sending.
Context `{Ext : Externals}.
Implicit Types (w : World) (s : Send) (r : Runtime) (p q : promise).

(** A keep-alive tick: the chat and the promises are left alone, and no
    [resolve] function is called. *)
Lemma keepTypingAlive_frame w :
  this (_keepTypingAlive w) = this w /\
  client (_keepTypingAlive w) = client w /\
  promises (runtime (_keepTypingAlive w)) = promises (runtime w) /\
  forall p, resolve_calls p (_keepTypingAlive w) = resolve_calls p w.
Proof.
  unfold _keepTypingAlive, resolve_calls.
  destruct (typing (this w)); simpl.
  - repeat split. intros p. rewrite List.filter_app. simpl.
    now rewrite app_nil_r.
  - destruct (_keepTypingAliveInterval (this w)); simpl; repeat split.
Qed.

Lemma tick_frame w :
  this (tick w) = this w /\
  client (tick w) = client w /\
  promises (runtime (tick w)) = promises (runtime w) /\
  forall p, resolve_calls p (tick w) = resolve_calls p w.
Proof.
  unfold tick.
  destruct (typing (this w) && falsy (_disableTypingOnSend (this w))).
  - apply keepTypingAlive_frame.
  - repeat split.
Qed.

Lemma resolve_calls_resolve p v w :
  resolve_calls p (with_runtime (resolve p v) w) = S (resolve_calls p w).
Proof.
  unfold resolve_calls, resolve. simpl. rewrite settle_trace. simpl.
  rewrite List.filter_app, length_app. simpl. rewrite Nat.eqb_refl. simpl.
  lia.
Qed.

Lemma resolve_calls_settle p q st w :
  resolve_calls p (with_runtime (settle q st) w) = resolve_calls p w.
Proof. unfold resolve_calls. simpl. now rewrite settle_trace. Qed.

(** The callback when the message is already there. *)
Lemma on_broadcast_known p i w :
  Collection.has i (messages (this w)) = true ->
  on_broadcast p i w
  = with_runtime (resolve p (Collection.get i (messages (this w))))
      (with_this
         (fun c => set_sentMessagesPromises
            (Collection.delete i
               (Collection.set i p (_sentMessagesPromises c))) c)
         (tick w)).
Proof.
  intros H. unfold on_broadcast.
  destruct (tick_frame w) as (Ht & _). simpl. rewrite Ht, H.
  reflexivity.
Qed.

(** The callback when the message is not there yet. *)
Lemma on_broadcast_unknown p i w :
  Collection.has i (messages (this w)) = false ->
  on_broadcast p i w
  = with_this
      (fun c => set_sentMessagesPromises
         (Collection.set i p (_sentMessagesPromises c)) c)
      (tick w).
Proof.
  intros H. unfold on_broadcast.
  destruct (tick_frame w) as (Ht & _). simpl. rewrite Ht, H.
  reflexivity.
Qed.

(** What the three methods hand back: a pending promise, and a second
    promise for the [.then]. *)
Lemma send_fresh call w :
  let '(s, w1) := send call w in
  outer s <> chained s /\
  state_of (outer s) w1 = Some Pending /\
  this w1 = this w /\
  trace (runtime w1) = (trace (runtime w) ++ [call (id (this w))])%list.
Proof.
  unfold send, state_of. simpl. repeat split.
  - rewrite length_app. simpl. lia.
  - rewrite lookup_app_l by (rewrite length_app; simpl; lia).
    apply list_lookup_middle. reflexivity.
Qed.



End Sending.

(** ** The resolvers that are stored

    Every resolver in [_sentMessagesPromises] is the [resolve] function of
    a promise that exists: the constructor stores none, a send makes its
    promise before its resolver is stored, and a merge only takes resolvers
    out. *)
Section StoredResolvers.
Context `{Ext : Externals}.
Implicit Types (d : Data) (w : World) (s : Send) (l : list Item).

Lemma patch_items_length l w :
  length (promises (runtime (fold_left patch_item l w)))
  = length (promises (runtime w)).
Proof.
  revert w. induction l as [|it l IH]; intros w; [reflexivity|].
  cbn [fold_left]. rewrite IH.
  destruct (patch_item_eq w it) as (_ & _ & ->).
  destruct (found w it); [|reflexivity].
  unfold resolve. now rewrite settle_length.
Qed.

Lemma patch_length d w :
  length (promises (runtime (_patch d w))) = length (promises (runtime w)).
Proof.
  destruct (patch_members_this d w) as (_ & _ & Hr).
  unfold _patch. simpl. now rewrite patch_items_length, Hr.
Qed.

Lemma new_Chat_allocated cl rt threadID d :
  resolvers_allocated (new_Chat cl rt threadID d).
Proof.
  unfold new_Chat.
  match goal with |- context [_patch d ?b] => set (blank := b) end.
  destruct (patch_quiet d blank) as (H & _).
  { intros it _. unfold found. now destruct (is_registered blank). }
  intros k p Hk. rewrite H in Hk. discriminate Hk.
Qed.

Lemma patch_allocated d w :
  resolvers_allocated w -> resolvers_allocated (_patch d w).
Proof.
  intros Hall k p. rewrite patch_resolvers, patch_length.
  destruct (is_registered w && bool_decide (k ∈ ids (data_items d)));
    [discriminate|apply Hall].
Qed.

Lemma send_allocated call w :
  resolvers_allocated w -> resolvers_allocated (snd (send call w)).
Proof.
  intros Hall k p Hk. apply Hall in Hk. simpl.
  rewrite !length_app. simpl. lia.
Qed.

Lemma broadcast_settled_allocated s (r : NetResult string) w :
  outer s < length (promises (runtime w)) ->
  resolvers_allocated w -> resolvers_allocated (broadcast_settled s r w).
Proof.
  intros Hs Hall. destruct (tick_frame w) as (Ht & _ & Hp & _).
  destruct r as [i|e].
  - unfold broadcast_settled.
    destruct (Collection.has i (messages (this w))) eqn:Hi.
    + rewrite (on_broadcast_known _ _ _ Hi). intros k p. simpl.
      unfold resolve. rewrite !settle_length. simpl. rewrite Ht, Hp.
      destruct (String.eqb_spec k i) as [->|Hne].
      * now rewrite get_delete_eq.
      * rewrite get_delete_ne, get_set_ne by exact Hne. apply Hall.
    + rewrite (on_broadcast_unknown _ _ _ Hi). intros k p. simpl.
      rewrite settle_length, Ht, Hp.
      destruct (String.eqb_spec k i) as [->|Hne].
      * rewrite get_set_eq. now intros [= <-].
      * rewrite get_set_ne by exact Hne. apply Hall.
  - intros k p Hk. simpl. rewrite settle_length. exact (Hall k p Hk).
Qed.

End StoredResolvers.
Section SendingTheorems.
Context `{Ext : Externals}.
Implicit Types (w : World) (s : Send) (i : string).


(** C3 (as the code has it). The broadcast of a send fails.  The promise
    handed to the caller is left as it was, pending: the error rejects the
    promise of the [.then], which nobody holds.  No field of the chat
    changes, no resolver is stored, no call is made to the network. *)
Theorem broadcast_failure_pending s e w :
  outer s <> chained s ->
  let w1 := broadcast_settled s (NetFailed e) w in
  state_of (outer s) w1 = state_of (outer s) w /\
  (state_of (chained s) w = Some Pending ->
   state_of (chained s) w1 = Some (Rejected e)) /\
  this w1 = this w /\
  client w1 = client w /\
  trace (runtime w1) = trace (runtime w) /\
  timers (runtime w1) = timers (runtime w).
Proof.
  intros Hne w1. subst w1. unfold state_of. simpl.
  rewrite settle_other by exact Hne. rewrite settle_trace, settle_timers.
  repeat split. intros H. now apply settle_pending.
Qed.

(** C4 (as the code has it). [sendPhoto] with a source that cannot be
    read.  When [_verify] returns a promise and that promise is rejected,
    no broadcast is issued, the chat, the client, the timers and the trace
    are untouched, and the promise handed to the caller is left pending: it
    is not rejected.  It is rejected, with the error thrown, when
    [_verify] throws inside the executor; nothing else changes then
    either. *)
Theorem sendPhoto_unreadable e w :
  (let '(s, w1) := sendPhoto None w in
   outer s <> chained s /\
   state_of (outer s) w1 = Some Pending /\
   this w1 = this w /\
   trace (runtime w1) = trace (runtime w)) /\
  (forall s w',
     outer s <> chained s ->
     fst (verify_settled s (NetFailed e) w') = None /\
     this (snd (verify_settled s (NetFailed e) w')) = this w' /\
     client (snd (verify_settled s (NetFailed e) w')) = client w' /\
     trace (runtime (snd (verify_settled s (NetFailed e) w')))
     = trace (runtime w') /\
     timers (runtime (snd (verify_settled s (NetFailed e) w')))
     = timers (runtime w') /\
     state_of (outer s) (snd (verify_settled s (NetFailed e) w'))
     = state_of (outer s) w') /\
  (let '(s, w1) := sendPhoto (Some e) w in
   state_of (outer s) w1 = Some (Rejected e) /\
   this w1 = this w /\
   trace (runtime w1) = trace (runtime w)).
Proof.
  split; [|split].
  - unfold sendPhoto, state_of. simpl. repeat split.
    + rewrite length_app. simpl. lia.
    + rewrite lookup_app_l by (rewrite length_app; simpl; lia).
      apply list_lookup_middle. reflexivity.
  - intros s w' Hne. unfold state_of. simpl.
    rewrite settle_other by exact Hne. rewrite settle_trace, settle_timers.
    repeat split.
  - unfold sendPhoto, state_of. simpl. rewrite settle_trace.
    repeat split. apply settle_pending. simpl.
    apply list_lookup_middle. reflexivity.
Qed.

End SendingTheorems.



(** The snapshot lists ["m1"] twice: the resolver is called by the
    constructor of the first Message, and [messages] holds the second. *)
Example merge_lists_item_twice :
  state_of 0
    (_patch (Demo.snapshot [Demo.alice] [] [Demo.hello; Demo.hello'])
       Demo.approved_answered)
  = Some (Fulfilled (Some (mkMessageObj 0 ("t1", Demo.hello)))) /\
  Collection.get "m1"
    (messages
       (this (_patch (Demo.snapshot [Demo.alice] [] [Demo.hello; Demo.hello'])
                Demo.approved_answered)))
  = Some (@mkMessageObj Demo.demo 1 ("t1", Demo.hello')).
Proof. split; reflexivity. Qed.

Lemma broadcast_failure_pending_witness :
  outer (fst Demo.sent) <> chained (fst Demo.sent) /\
  state_of (outer (fst Demo.sent)) Demo.send_failed
  = state_of (outer (fst Demo.sent)) (snd Demo.sent).
Proof.
  assert (H1 : outer (fst Demo.sent) <> chained (fst Demo.sent))
    by discriminate.
  split; [exact H1|].
  apply (proj1 (broadcast_failure_pending (fst Demo.sent) "offline"
                  (snd Demo.sent) H1)).
Defined.

(** C3 (as stated) fails: the broadcast of [sendMessage('hey')] fails with
    ["offline"], and the promise handed to the caller is pending, not
    rejected. *)
Lemma send_failed_pending :
  state_of (outer (fst Demo.sent)) Demo.send_failed = Some Pending /\
  state_of (outer (fst Demo.sent)) Demo.send_failed
  <> Some (Rejected "offline").
Proof. split; [reflexivity|discriminate]. Qed.

Lemma sendPhoto_unreadable_witness :
  outer (fst Demo.photo) <> chained (fst Demo.photo) /\
  fst Demo.photo_unreadable = None.
Proof.
  assert (H1 : outer (fst Demo.photo) <> chained (fst Demo.photo))
    by discriminate.
  split; [exact H1|].
  apply (proj1 (proj1 (proj2 (sendPhoto_unreadable "ENOENT" Demo.fresh))
                  (fst Demo.photo) (snd Demo.photo) H1)).
Defined.

(** C4 (as stated) fails: the file of [sendPhoto] cannot be read, and the
    promise handed to the caller is pending, not rejected; no broadcast was
    made. *)
Lemma unreadable_photo_pending :
  state_of (outer (fst Demo.photo)) (snd Demo.photo_unreadable)
  = Some Pending /\
  state_of (outer (fst Demo.photo)) (snd Demo.photo_unreadable)
  <> Some (Rejected "ENOENT") /\
  List.filter is_broadcast (trace (runtime (snd Demo.photo_unreadable))) = [].
Proof. split; [reflexivity|]. split; [discriminate|reflexivity]. Qed.


(** * Further properties *)

(** ** What a merge leaves in the collections *)
Section MergeContents.
Context `{Ext : Externals}.
Implicit Types (d : Data) (w : World) (k : string).

Lemma patch_items_extends (l : list Item) w :
  extends (messages (this w)) (messages (this (fold_left patch_item l w))).
Proof.
  revert w. induction l as [|it l IH]; intros w; [apply extends_refl|].
  cbn [fold_left]. eapply extends_trans; [|apply IH].
  rewrite patch_item_messages. apply extends_set.
Qed.

Lemma patch_entry_extends u (local : Collection.t ref) cl :
  extends local (fst (patch_entry u (local, cl))).
Proof.
  destruct (Collection.get (pk u) (cache_users cl)) as [o|] eqn:E.
  - rewrite (patch_entry_present _ _ _ _ E). apply extends_set.
  - rewrite (patch_entry_absent _ _ _ E). apply extends_set.
Qed.

Lemma patch_entries_extends l (local : Collection.t ref) cl :
  extends local (fst (patch_entries l (local, cl))).
Proof.
  revert local cl. induction l as [|u l IH]; intros local cl;
    [apply extends_refl|].
  change (patch_entries (u :: l) (local, cl))
    with (patch_entries l (patch_entry u (local, cl))).
  pose proof (patch_entry_extends u local cl) as H1.
  destruct (patch_entry u (local, cl)) as [local1 cl1].
  eapply extends_trans; [exact H1|apply IH].
Qed.

Lemma patch_extends d w :
  extends (messages (this w)) (messages (this (_patch d w))).
Proof.
  pose proof (patch_items_extends (data_items d) (patch_members d w)) as H.
  destruct (patch_members_this d w) as (Ht & _). rewrite Ht in H at 1.
  exact H.
Qed.

(** X1. The message under a key after a merge: the one built from the last
    item of the snapshot with that identifier, an object that the merge
    constructed; and the object that was there when the snapshot has no
    such item. *)
Theorem patch_message_lookup d w k :
  Collection.get k (fields_of (messages (this (_patch d w))))
  = match last_item k (data_items d) with
    | Some it => Some (Message_new (id (this w)) it)
    | None => Collection.get k (fields_of (messages (this w)))
    end /\
  match last_item k (data_items d) with
  | Some it =>
      exists m,
        Collection.get k (messages (this (_patch d w))) = Some m /\
        msg_fields m = Message_new (id (this w)) it /\
        next_message (client w) <= msg_ref m /\
        msg_ref m < next_message (client (_patch d w))
  | None =>
      Collection.get k (messages (this (_patch d w)))
      = Collection.get k (messages (this w))
  end.
Proof.
  pose proof (patch_get d w k) as H. split; [|exact H].
  rewrite !fields_of_get.
  destruct (last_item k (data_items d)) as [it|].
  - destruct H as (m & -> & <- & _). reflexivity.
  - now rewrite H.
Qed.

(** X2. A merge keeps the order of the three collections: the keys that
    were there stay where they are, also when their value is replaced, and
    the keys that are new come after them. *)
Theorem patch_keeps_order d w :
  extends (messages (this w)) (messages (this (_patch d w))) /\
  extends (users (this w)) (users (this (_patch d w))) /\
  extends (leftUsers (this w)) (leftUsers (this (_patch d w))).
Proof.
  rewrite patch_users, patch_leftUsers.
  split; [apply patch_extends|].
  split; apply patch_entries_extends.
Qed.

Lemma first_get {V : Type} (c : Collection.t V) k :
  head (Collection.keys c) = Some k ->
  Collection.first c = Collection.get k c.
Proof.
  destruct c as [|[k0 v0] r]; simpl; [discriminate|].
  intros [= ->]. now rewrite String.eqb_refl.
Qed.

(** X3. [approve] after a merge: the event that [approve] emits carries
    the message under the key that was first before the merge, as the merge
    left it: an object the merge constructed from the last item of the
    snapshot with that identifier, or the object that was there. *)
Theorem approve_after_merge d w k m :
  head (Collection.keys (messages (this w))) = Some k ->
  Collection.get k (messages (this w)) = Some m ->
  exists m',
    trace (runtime (approve_settled (NetOk tt) (_patch d w)))
    = (trace (runtime (_patch d w))
       ++ [Emit "messageCreate" (Some m')])%list /\
    Collection.get k (messages (this (_patch d w))) = Some m' /\
    match last_item k (data_items d) with
    | Some it =>
        msg_fields m' = Message_new (id (this w)) it /\
        next_message (client w) <= msg_ref m'
    | None => m' = m
    end.
Proof.
  intros Hk Hm.
  assert (Hf : Collection.first (messages (this (_patch d w)))
               = Collection.get k (messages (this (_patch d w)))).
  { apply first_get.
    apply (extends_head (messages (this w))); [|exact Hk].
    apply patch_extends. }
  assert (Ht : trace (runtime (approve_settled (NetOk tt) (_patch d w)))
               = (trace (runtime (_patch d w))
                  ++ [Emit "messageCreate"
                        (Collection.first (messages (this (_patch d w))))])%list)
    by reflexivity.
  rewrite Ht, Hf. clear Ht Hf.
  pose proof (patch_get d w k) as G.
  destruct (last_item k (data_items d)) as [it|].
  - destruct G as (m' & G1 & G2 & G3 & _). exists m'.
    split; [|split; [exact G1|split; [exact G2|exact G3]]].
    now rewrite G1.
  - rewrite Hm in G. exists m.
    split; [|split; [exact G|reflexivity]].
    now rewrite G.
Qed.

End MergeContents.
(** ** Merging the same snapshot again *)
Section MergeTwice.
Context `{Ext : Externals}.
Implicit Types (d : Data) (w : World) (k : string).

Lemma last_item_some k (l : list Item) :
  k ∈ ids l -> exists it, last_item k l = Some it.
Proof.
  induction l as [|it l IH] using rev_ind; [intros H; inversion H|].
  unfold ids. rewrite map_app, elem_of_app. simpl.
  rewrite last_item_snoc. intros [H|H].
  - destruct (String.eqb k (item_id it)); eauto.
  - apply list_elem_of_singleton in H as ->.
    rewrite String.eqb_refl. eauto.
Qed.

Lemma merge_fields_has_all threadID (l : list Item)
    (m : Collection.t Message) :
  forall it, it ∈ l ->
    Collection.has (item_id it) (fold_left (merge_fields threadID) l m)
    = true.
Proof.
  intros it Hin. rewrite merge_fields_has.
  rewrite bool_decide_true; [reflexivity|].
  apply list_elem_of_fmap. eauto.
Qed.

Lemma merge_fields_absorb threadID (l : list Item) k v v0
    (c : Collection.t Message) :
  (forall it, it ∈ l -> Collection.has (item_id it) c = true) ->
  Collection.set k v
    (fold_left (merge_fields threadID) l (Collection.set k v0 c))
  = Collection.set k v (fold_left (merge_fields threadID) l c).
Proof.
  revert c. induction l as [|it l IH]; intros c Hall; simpl.
  - apply set_set_eq.
  - unfold merge_fields at 2 4.
    assert (Hit : Collection.has (item_id it) c = true)
      by (apply Hall; left).
    assert (Hrest : forall it', it' ∈ l ->
              Collection.has (item_id it')
                (Collection.set (item_id it) (Message_new threadID it) c)
              = true).
    { intros it' Hin. rewrite has_set, (Hall it') by (now right).
      apply orb_true_r. }
    destruct (String.eqb_spec (item_id it) k) as [<-|Hne].
    + now rewrite set_set_eq.
    + rewrite <- (set_set_ne k (item_id it) v0) by (congruence || assumption).
      now apply IH.
Qed.

Lemma merge_fields_idem threadID (l : list Item) (m : Collection.t Message) :
  fold_left (merge_fields threadID) l (fold_left (merge_fields threadID) l m)
  = fold_left (merge_fields threadID) l m.
Proof.
  revert m. induction l as [|it l IH] using rev_ind; intros m;
    [reflexivity|].
  rewrite !fold_left_app. simpl. unfold merge_fields at 1 3 4.
  rewrite merge_fields_absorb by apply merge_fields_has_all.
  now rewrite IH.
Qed.

(** Entries that the collection and the cache hold already, with one object
    each: merging them changes neither. *)
Lemma patch_entries_stable l (local : Collection.t ref) cl :
  (forall u, u ∈ l -> exists o,
      Collection.get (pk u) local = Some o /\
      Collection.get (pk u) (cache_users cl) = Some o) ->
  fst (patch_entries l (local, cl)) = local /\
  cache_users (snd (patch_entries l (local, cl))) = cache_users cl /\
  length (heap (snd (patch_entries l (local, cl)))) = length (heap cl).
Proof.
  revert cl. induction l as [|u l IH]; intros cl Hall; [now repeat split|].
  change (patch_entries (u :: l) (local, cl))
    with (patch_entries l (patch_entry u (local, cl))).
  destruct (Hall u) as (o & Hl & Hc); [left|].
  rewrite (patch_entry_present _ _ _ _ Hc), (set_same _ _ _ Hl).
  destruct (IH (set_heap (alter (User_patch u) o (heap cl)) cl))
    as (H1 & H2 & H3).
  { intros u' Hin. apply Hall. now right. }
  rewrite H1, H2, H3. simpl. rewrite length_alter. now repeat split.
Qed.

(** After a merge, every listed user names one object in its collection and
    in the cache. *)
Lemma patch_agree d w :
  (forall u, u ∈ data_users d -> exists o,
      Collection.get (pk u) (users (this (_patch d w))) = Some o /\
      Collection.get (pk u) (cache_users (client (_patch d w))) = Some o) /\
  (forall u, u ∈ data_left_users d -> exists o,
      Collection.get (pk u) (leftUsers (this (_patch d w))) = Some o /\
      Collection.get (pk u) (cache_users (client (_patch d w))) = Some o).
Proof.
  split; intros u Hu.
  - rewrite patch_users, patch_cache_users.
    destruct (patch_entries_agree _ (users (this w)) (client w) u Hu)
      as (o & H1 & H2).
    exists o. split; [exact H1|].
    destruct (patch_entries (data_users d) _) as [us cl1]. simpl in *.
    now apply patch_entries_cache_keeps.
  - rewrite patch_leftUsers, patch_cache_users.
    apply patch_entries_agree, Hu.
Qed.

(** X4. Merging a snapshot a second time changes nothing in the chat but
    the identity of the messages it lists: their fields, the order of
    [messages], [users], [leftUsers] and every other field are as the first
    merge left them; the cache of users keeps its entries, no User is
    constructed, no resolver is called and the runtime is untouched.  Each
    listed message is an object that the second merge constructed, not the
    one of the first. *)
Theorem patch_idempotent d w :
  fields_of (messages (this (_patch d (_patch d w))))
  = fields_of (messages (this (_patch d w))) /\
  users (this (_patch d (_patch d w))) = users (this (_patch d w)) /\
  leftUsers (this (_patch d (_patch d w))) = leftUsers (this (_patch d w)) /\
  attributes (this (_patch d (_patch d w)))
  = attributes (this (_patch d w)) /\
  id (this (_patch d (_patch d w))) = id (this (_patch d w)) /\
  typing (this (_patch d (_patch d w))) = typing (this (_patch d w)) /\
  _disableTypingOnSend (this (_patch d (_patch d w)))
  = _disableTypingOnSend (this (_patch d w)) /\
  _stopTypingTimeout (this (_patch d (_patch d w)))
  = _stopTypingTimeout (this (_patch d w)) /\
  _keepTypingAliveInterval (this (_patch d (_patch d w)))
  = _keepTypingAliveInterval (this (_patch d w)) /\
  _sentMessagesPromises (this (_patch d (_patch d w)))
  = _sentMessagesPromises (this (_patch d w)) /\
  cache_users (client (_patch d (_patch d w)))
  = cache_users (client (_patch d w)) /\
  length (heap (client (_patch d (_patch d w))))
  = length (heap (client (_patch d w))) /\
  runtime (_patch d (_patch d w)) = runtime (_patch d w) /\
  (forall it, it ∈ data_items d ->
     exists m1 m2,
       Collection.get (item_id it) (messages (this (_patch d w)))
       = Some m1 /\
       Collection.get (item_id it) (messages (this (_patch d (_patch d w))))
       = Some m2 /\
       msg_fields m2 = msg_fields m1 /\
       msg_ref m1 < msg_ref m2).
Proof.
  set (w1 := _patch d w).
  destruct (patch_agree d w) as (Hu & Hl). fold w1 in Hu, Hl.
  destruct (patch_entries_stable (data_users d) (users (this w1)) (client w1)
              Hu) as (U1 & U2 & U3).
  assert (Hl' : forall u, u ∈ data_left_users d -> exists o,
      Collection.get (pk u) (leftUsers (this w1)) = Some o /\
      Collection.get (pk u)
        (cache_users
           (snd (patch_entries (data_users d) (users (this w1), client w1))))
      = Some o).
  { intros u Hin. rewrite U2. now apply Hl. }
  destruct (patch_entries_stable (data_left_users d) (leftUsers (this w1)) _
              Hl') as (L1 & L2 & L3).
  assert (Hid : id (this w1) = id (this w)) by apply patch_session.
  destruct (patch_session d w1) as (S1 & S2 & S3 & S4 & S5).
  destruct (patch_quiet d w1) as (Q1 & Q2).
  { intros it Hin. unfold found, w1.
    rewrite patch_registered, patch_resolvers.
    destruct (is_registered w); [|reflexivity].
    rewrite bool_decide_true; [reflexivity|].
    apply list_elem_of_fmap. eauto. }
  split.
  { rewrite patch_fields, Hid. unfold w1. rewrite patch_fields.
    apply merge_fields_idem. }
  split; [now rewrite patch_users|].
  split; [now rewrite patch_leftUsers|].
  split; [unfold w1; now rewrite !patch_attributes|].
  do 5 (split; [assumption|]).
  split; [exact Q1|].
  split; [now rewrite patch_cache_users, L2, U2|].
  split; [now rewrite patch_heap, L3, U3|].
  split; [exact Q2|].
  intros it Hin.
  destruct (last_item_some (item_id it) (data_items d)) as (it' & E).
  { apply list_elem_of_fmap. eauto. }
  pose proof (patch_get d w (item_id it)) as G1.
  pose proof (patch_get d w1 (item_id it)) as G2.
  rewrite E in G1, G2.
  destruct G1 as (m1 & A1 & A2 & _ & A4).
  destruct G2 as (m2 & B1 & B2 & B3 & _).
  exists m1, m2. fold w1 in A1, A4.
  split; [exact A1|]. split; [exact B1|].
  split; [now rewrite A2, B2, Hid|lia].
Qed.

End MergeTwice.
(** ** The users of a chat and the cache *)
Section UsersFromCache.
Context `{Ext : Externals}.
Implicit Types (d : Data) (w : World) (k : string).

Lemma patch_entry_from_cache u (local : Collection.t ref) cl :
  (forall k o, Collection.get k local = Some o ->
               Collection.get k (cache_users cl) = Some o) ->
  forall k o,
    Collection.get k (fst (patch_entry u (local, cl))) = Some o ->
    Collection.get k (cache_users (snd (patch_entry u (local, cl)))) = Some o.
Proof.
  intros Hinv k o.
  destruct (Collection.get (pk u) (cache_users cl)) as [o'|] eqn:E.
  - rewrite (patch_entry_present _ _ _ _ E). simpl.
    destruct (String.eqb_spec k (pk u)) as [->|Hne].
    + rewrite get_set_eq. congruence.
    + rewrite get_set_ne by exact Hne. apply Hinv.
  - rewrite (patch_entry_absent _ _ _ E). simpl.
    destruct (String.eqb_spec k (pk u)) as [->|Hne].
    + now rewrite !get_set_eq.
    + rewrite !get_set_ne by exact Hne. apply Hinv.
Qed.

Lemma patch_entries_from_cache l (local : Collection.t ref) cl :
  (forall k o, Collection.get k local = Some o ->
               Collection.get k (cache_users cl) = Some o) ->
  forall k o,
    Collection.get k (fst (patch_entries l (local, cl))) = Some o ->
    Collection.get k (cache_users (snd (patch_entries l (local, cl))))
    = Some o.
Proof.
  revert local cl. induction l as [|u l IH]; intros local cl Hinv;
    [exact Hinv|].
  change (patch_entries (u :: l) (local, cl))
    with (patch_entries l (patch_entry u (local, cl))).
  pose proof (patch_entry_from_cache u local cl Hinv) as H1.
  destruct (patch_entry u (local, cl)) as [local1 cl1]. now apply IH.
Qed.

Lemma patch_from_cache d w :
  users_from_cache w -> users_from_cache (_patch d w).
Proof.
  intros Hinv k o. rewrite patch_users, patch_leftUsers, patch_cache_users.
  assert (Hu : forall k o, Collection.get k (users (this w)) = Some o ->
                 Collection.get k (cache_users (client w)) = Some o)
    by (intros; apply Hinv; now left).
  assert (Hl : forall k o, Collection.get k (leftUsers (this w)) = Some o ->
                 Collection.get k (cache_users (client w)) = Some o)
    by (intros; apply Hinv; now right).
  pose proof (patch_entries_from_cache (data_users d) _ _ Hu) as H1.
  pose proof (fun k o => patch_entries_cache_keeps (data_users d)
                (users (this w)) (client w) k o) as H2.
  destruct (patch_entries (data_users d) (users (this w), client w))
    as [us cl1]. simpl in *.
  intros [H|H].
  - apply patch_entries_cache_keeps. now apply H1.
  - revert H. apply patch_entries_from_cache.
    intros k' o' Hk'. apply H2. now apply Hl.
Qed.

(** X5. In every state of a chat, built by the constructor and changed by
    merges, the users of [users] and of [leftUsers] are the objects the
    cache holds under the same keys: the chat never has a User of its
    own. *)
Theorem users_are_cached w : reachable w -> users_from_cache w.
Proof.
  induction 1 as [cl rt threadID d|d w _ IH].
  - unfold new_Chat. apply patch_from_cache. intros k o [H|H]; discriminate.
  - now apply patch_from_cache.
Qed.

(** X6. What the constructor builds: the chat has the given identifier, is
    not typing, has no pending resolver and no timer handle; its collections
    hold the keys the snapshot lists and no other; its attributes are the
    ones of the snapshot; the runtime is untouched. *)
Theorem new_Chat_contents cl rt threadID d k :
  let w := new_Chat cl rt threadID d in
  id (this w) = threadID /\
  typing (this w) = false /\
  _disableTypingOnSend (this w) = None /\
  _stopTypingTimeout (this w) = None /\
  _keepTypingAliveInterval (this w) = None /\
  _sentMessagesPromises (this w) = [] /\
  attributes (this w) = attributes_of d /\
  runtime w = rt /\
  Collection.has k (messages (this w))
  = bool_decide (k ∈ map item_id (data_items d)) /\
  Collection.has k (users (this w))
  = bool_decide (k ∈ map pk (data_users d)) /\
  Collection.has k (leftUsers (this w))
  = bool_decide (k ∈ map pk (data_left_users d)).
Proof.
  intros w. subst w. unfold new_Chat.
  match goal with |- context [_patch d ?b] => set (blank := b) end.
  destruct (patch_session d blank) as (H1 & H2 & H3 & H4 & H5).
  destruct (patch_quiet d blank) as (H6 & H7).
  { intros it _. unfold found. now destruct (is_registered blank). }
  rewrite H1, H2, H3, H4, H5, H6, H7, patch_attributes.
  repeat split.
  - rewrite patch_has. apply orb_false_r.
  - rewrite patch_users, patch_entries_has. apply orb_false_r.
  - rewrite patch_leftUsers.
    destruct (patch_entries (data_users d) _) as [us cl1]; simpl.
    rewrite patch_entries_has. apply orb_false_r.
Qed.

(** X7. [approve], once the network call has succeeded, touches the key
    of this thread only: a chat object already cached under the key is
    kept (this chat is stored when there is none), every other key of the
    two caches of chats keeps its value, and the users are left alone. *)
Theorem approve_own_key w :
  let w' := approve_settled (NetOk tt) w in
  Collection.get (id (this w)) (cache_chats (client w'))
  = Some (match Collection.get (id (this w)) (cache_chats (client w)) with
          | Some c => c
          | None => ThisChat
          end) /\
  (forall k, k <> id (this w) ->
     Collection.get k (cache_chats (client w'))
     = Collection.get k (cache_chats (client w)) /\
     Collection.get k (cache_pendingChats (client w'))
     = Collection.get k (cache_pendingChats (client w))) /\
  cache_users (client w') = cache_users (client w) /\
  heap (client w') = heap (client w).
Proof.
  simpl. unfold Collection.has.
  destruct (Collection.get (id (this w)) (cache_chats (client w)))
    as [c|] eqn:E; simpl.
  - repeat split; auto. now apply get_delete_ne.
  - rewrite get_set_eq. repeat split; auto.
    + now apply get_set_ne.
    + now apply get_delete_ne.
Qed.

End UsersFromCache.

(** ** Sends, typing and merges together *)
Section SendsCompose.
Context `{Ext : Externals}.
Implicit Types (d : Data) (w : World) (s : Send) (i j : string).

Lemma tick_runtime w :
  timers (runtime (tick w)) = timers (runtime w) /\
  trace (runtime (tick w))
  = (trace (runtime w)
     ++ (if typing (this w) && falsy (_disableTypingOnSend (this w))
         then [NetIndicateActivity (id (this w)) true] else []))%list.
Proof.
  unfold tick, _keepTypingAlive.
  destruct (typing (this w)); simpl.
  - destruct (falsy (_disableTypingOnSend (this w))); simpl.
    + now split.
    + now rewrite app_nil_r.
  - now rewrite app_nil_r.
Qed.

Lemma broadcast_ok_frame s i w :
  let w1 := broadcast_settled s (NetOk i) w in
  typing (this w1) = typing (this w) /\
  _disableTypingOnSend (this w1) = _disableTypingOnSend (this w) /\
  _stopTypingTimeout (this w1) = _stopTypingTimeout (this w) /\
  _keepTypingAliveInterval (this w1) = _keepTypingAliveInterval (this w) /\
  timers (runtime w1) = timers (runtime w) /\
  messages (this w1) = messages (this w) /\
  List.filter is_activity (trace (runtime w1))
  = (List.filter is_activity (trace (runtime w))
     ++ (if typing (this w) && falsy (_disableTypingOnSend (this w))
         then [NetIndicateActivity (id (this w)) true] else []))%list.
Proof.
  intros w1. subst w1. unfold broadcast_settled.
  destruct (tick_frame w) as (Ht & _).
  destruct (tick_runtime w) as (Htm & Htr).
  destruct (Collection.has i (messages (this w))) eqn:Hi.
  - rewrite (on_broadcast_known _ _ _ Hi). simpl.
    rewrite settle_timers, settle_trace. unfold resolve.
    rewrite settle_timers, settle_trace. simpl.
    rewrite Ht, Htm, Htr, !List.filter_app. simpl. rewrite app_nil_r.
    repeat split.
    now destruct (typing (this w) && falsy (_disableTypingOnSend (this w))).
  - rewrite (on_broadcast_unknown _ _ _ Hi). simpl.
    rewrite settle_timers, settle_trace.
    rewrite Ht, Htm, Htr, !List.filter_app.
    repeat split.
    now destruct (typing (this w) && falsy (_disableTypingOnSend (this w))).
Qed.

(** X8. A send that succeeds never ends or changes the typing session:
    [typing], the flag, the two stored handles and the scheduled timers are
    as before, whatever [disableOnSend] was.  It sends one is-active signal
    when the chat is typing and the flag is off, and no signal otherwise. *)
Theorem send_keeps_typing s i w :
  let w1 := broadcast_settled s (NetOk i) w in
  typing (this w1) = typing (this w) /\
  _disableTypingOnSend (this w1) = _disableTypingOnSend (this w) /\
  _stopTypingTimeout (this w1) = _stopTypingTimeout (this w) /\
  _keepTypingAliveInterval (this w1) = _keepTypingAliveInterval (this w) /\
  timers (runtime w1) = timers (runtime w) /\
  messages (this w1) = messages (this w) /\
  List.filter is_activity (trace (runtime w1))
  = (List.filter is_activity (trace (runtime w))
     ++ (if typing (this w) && falsy (_disableTypingOnSend (this w))
         then [NetIndicateActivity (id (this w)) true] else []))%list.
Proof. apply broadcast_ok_frame. Qed.

(** X9. Two sends answered before their messages arrive: each resolver is
    stored under its own identifier.  When the two answers carry the same
    identifier, the resolver of the second send replaces the one of the
    first. *)
Theorem sends_keep_resolvers s1 s2 i j w :
  Collection.has i (messages (this w)) = false ->
  Collection.has j (messages (this w)) = false ->
  let w2 := broadcast_settled s2 (NetOk j) (broadcast_settled s1 (NetOk i) w)
  in
  Collection.get j (_sentMessagesPromises (this w2)) = Some (outer s2) /\
  Collection.get i (_sentMessagesPromises (this w2))
  = Some (if String.eqb i j then outer s2 else outer s1).
Proof.
  intros Hi Hj w2. subst w2.
  set (w1 := broadcast_settled s1 (NetOk i) w).
  assert (Hm : messages (this w1) = messages (this w)).
  { unfold w1, broadcast_settled. rewrite (on_broadcast_unknown _ _ _ Hi).
    simpl. now destruct (tick_frame w) as (-> & _). }
  assert (H1 : Collection.get i (_sentMessagesPromises (this w1))
               = Some (outer s1)).
  { unfold w1, broadcast_settled. rewrite (on_broadcast_unknown _ _ _ Hi).
    simpl. apply get_set_eq. }
  assert (Hj1 : Collection.has j (messages (this w1)) = false)
    by now rewrite Hm.
  unfold broadcast_settled at 1 2. rewrite (on_broadcast_unknown _ _ _ Hj1).
  simpl. destruct (tick_frame w1) as (-> & _). split.
  - apply get_set_eq.
  - destruct (String.eqb_spec i j) as [->|Hne].
    + apply get_set_eq.
    + now rewrite get_set_ne.
Qed.

(** The answer of a broadcast after the merge that brought its message. *)
Lemma resolve_after_merge s i d it w :
  outer s <> chained s ->
  state_of (outer s) w = Some Pending ->
  (forall k,
     Collection.get k (_sentMessagesPromises (this w)) <> Some (outer s)) ->
  last_item i (data_items d) = Some it ->
  let w' := broadcast_settled s (NetOk i) (_patch d w) in
  exists m,
    state_of (outer s) w' = Some (Fulfilled (Some m)) /\
    Collection.get i (messages (this w')) = Some m /\
    msg_fields m = Message_new (id (this w)) it /\
    Collection.has i (_sentMessagesPromises (this w')) = false /\
    resolve_calls (outer s) w' = S (resolve_calls (outer s) w).
Proof.
  intros Hne Hp Hfree Hit w'. subst w'.
  pose proof (patch_get d w i) as G. rewrite Hit in G.
  destruct G as (m & Hget & Hm & _).
  destruct (patch_promise d w (outer s)) as (Hp1 & Hc1).
  { intros it' _. unfold found.
    destruct (is_registered w); [apply Hfree|discriminate]. }
  remember (_patch d w) as w1 eqn:Ew1. clear Ew1.
  assert (Hi : Collection.has i (messages (this w1)) = true)
    by (unfold Collection.has; now rewrite Hget).
  destruct (tick_frame w1) as (Ht & _ & Hpr & Hrc).
  unfold broadcast_settled. rewrite (on_broadcast_known _ _ _ Hi).
  exists m. split; [|split; [|split; [|split]]].
  - unfold state_of. simpl. rewrite settle_other by exact Hne.
    rewrite Hget. unfold resolve. apply settle_pending. simpl.
    now rewrite Hpr, Hp1.
  - simpl. now rewrite Ht.
  - exact Hm.
  - simpl. apply has_delete_eq.
  - rewrite resolve_calls_settle, resolve_calls_resolve. f_equal.
    pose proof (Hrc (outer s)) as Hrc'. unfold resolve_calls in *. simpl.
    now rewrite Hrc'.
Qed.

Lemma send_outer call w :
  outer (fst (send call w)) = length (promises (runtime w)) /\
  _sentMessagesPromises (this (snd (send call w)))
  = _sentMessagesPromises (this w).
Proof. now split. Qed.

Lemma send_then_merge call d i it w :
  (forall p t, is_resolve_of p (call t) = false) ->
  resolvers_allocated w ->
  last_item i (data_items d) = Some it ->
  let w' := broadcast_settled (fst (send call w)) (NetOk i)
              (_patch d (snd (send call w))) in
  exists m,
    state_of (outer (fst (send call w))) w' = Some (Fulfilled (Some m)) /\
    Collection.get i (messages (this w')) = Some m /\
    msg_fields m = Message_new (id (this w)) it /\
    Collection.has i (_sentMessagesPromises (this w')) = false /\
    resolve_calls (outer (fst (send call w))) w'
    = S (resolve_calls (outer (fst (send call w))) w).
Proof.
  intros Hcall Hall Hit w'. subst w'.
  pose proof (send_fresh call w) as H.
  destruct (send_outer call w) as (Ho & Hw).
  destruct (send call w) as [s w1]. destruct H as (Hne & Hp & Hthis & Htr).
  cbn [fst snd] in *.
  destruct (resolve_after_merge s i d it w1 Hne Hp) as (m & R1 & R2 & R3 & R4 & R5).
  { intros k Hk. rewrite Hw in Hk. apply Hall in Hk. lia. }
  { exact Hit. }
  exists m. rewrite Hthis in R3.
  split; [exact R1|]. split; [exact R2|]. split; [exact R3|].
  split; [exact R4|].
  rewrite R5. f_equal. unfold resolve_calls. rewrite Htr, List.filter_app.
  rewrite length_app. cbn [List.filter]. rewrite Hcall. simpl. lia.
Qed.

(** X10. [sendMessage] or [sendVoice], then the merge that brings item
    [i], then the answer of the broadcast with [i]; the resolvers stored
    when the send is made belong to promises that exist.  The promise
    handed to the caller is fulfilled with the message that [messages]
    holds under [i], the object built from the last item [i] of the
    snapshot, by one call of its resolver, and no resolver stays behind. *)
Theorem send_resolves_after_merge content buffer d i it w :
  resolvers_allocated w ->
  last_item i (data_items d) = Some it ->
  (let s := fst (sendMessage content w) in
   let w' := broadcast_settled s (NetOk i)
               (_patch d (snd (sendMessage content w))) in
   exists m,
     state_of (outer s) w' = Some (Fulfilled (Some m)) /\
     Collection.get i (messages (this w')) = Some m /\
     msg_fields m = Message_new (id (this w)) it /\
     Collection.has i (_sentMessagesPromises (this w')) = false /\
     resolve_calls (outer s) w' = S (resolve_calls (outer s) w)) /\
  (let s := fst (sendVoice buffer w) in
   let w' := broadcast_settled s (NetOk i)
               (_patch d (snd (sendVoice buffer w))) in
   exists m,
     state_of (outer s) w' = Some (Fulfilled (Some m)) /\
     Collection.get i (messages (this w')) = Some m /\
     msg_fields m = Message_new (id (this w)) it /\
     Collection.has i (_sentMessagesPromises (this w')) = false /\
     resolve_calls (outer s) w' = S (resolve_calls (outer s) w)).
Proof.
  intros Hall Hit. split.
  - apply (send_then_merge
             (fun threadId => NetBroadcastText threadId content));
      [reflexivity|exact Hall|exact Hit].
  - apply (send_then_merge
             (fun threadId => NetBroadcastVoice threadId buffer));
      [reflexivity|exact Hall|exact Hit].
Qed.

End SendsCompose.

(** ** The life of a typing session *)
Section TypingSession.
Context `{Ext : Externals}.
Implicit Types (w : World) (o : TypingOptions) (h : handle).

Lemma filter_fresh (ts : list Timer) n h :
  Forall (fun t => timer_handle t < n) ts -> n <= h ->
  filter (fun t => timer_handle t ≠ h) ts = ts.
Proof.
  intros Hall Hle. induction Hall as [|t ts Ht _ IH]; [reflexivity|].
  rewrite filter_cons_True by lia. now rewrite IH.
Qed.

Lemma find_fresh (ts : list Timer) n h :
  Forall (fun t => timer_handle t < n) ts -> n <= h ->
  List.find (fun t => bool_decide (timer_handle t = h)) ts = None.
Proof.
  intros Hall Hle. induction Hall as [|t ts Ht _ IH]; [reflexivity|].
  simpl. rewrite bool_decide_false by lia. exact IH.
Qed.

Lemma find_app (f : Timer -> bool) (l1 l2 : list Timer) :
  List.find f (l1 ++ l2)
  = match List.find f l1 with
    | Some t => Some t
    | None => List.find f l2
    end.
Proof.
  induction l1 as [|t l1 IH]; simpl; [reflexivity|].
  now destruct (f t).
Qed.

Lemma find_cleared (ts : list Timer) h :
  List.find (fun t => bool_decide (timer_handle t = h))
    (filter (fun t => timer_handle t ≠ h) ts) = None.
Proof.
  induction ts as [|t ts IH]; [reflexivity|].
  rewrite filter_cons. destruct (decide (timer_handle t ≠ h)); [|exact IH].
  simpl. now rewrite bool_decide_false.
Qed.

(** Filters over the timers of a runtime whose handles are below [n],
    followed by timers that are given one by one. *)
Ltac filter_timers ts n Hf :=
  rewrite ?filter_app;
  rewrite ?(filter_fresh ts n) by (exact Hf || (clear; lia));
  repeat first
    [ rewrite filter_cons_True by (clear; simpl; lia)
    | rewrite filter_cons_False by (clear; simpl; lia)
    | rewrite filter_nil ];
  rewrite ?app_nil_r.

(** X11. A typing session from start to end.  [startTyping] marks the
    chat as typing and sends one is-active signal; a tick of its repeating
    timer sends one more and changes nothing else; when its one-shot timer
    fires, the chat stops typing, one is-inactive signal is sent and the
    two timers of the session are gone, the timers scheduled before being
    left as they were. *)
Theorem typing_session o w :
  handles_fresh (runtime w) ->
  let t := next_handle (runtime w) in
  let w1 := startTyping_settled o (NetOk tt) (startTyping_begin w) in
  (typing (this w1) = true /\
   trace (runtime w1)
   = (trace (runtime w) ++ [NetIndicateActivity (id (this w)) true])%list) /\
  fire (S t) w1
  = with_runtime (log (NetIndicateActivity (id (this w)) true)) w1 /\
  (typing (this (fire t w1)) = false /\
   timers (runtime (fire t w1)) = timers (runtime w) /\
   trace (runtime (fire t w1))
   = (trace (runtime w1) ++ [NetIndicateActivity (id (this w)) false])%list).
Proof.
  intros Hf t w1. unfold handles_fresh in Hf. fold t in Hf.
  assert (Htm : timers (runtime w1)
                = (timers (runtime w)
                   ++ [mkTimer t OneShot (timeout_of (duration o));
                       mkTimer (S t) Repeating 9000%Z])%list).
  { subst w1. simpl. now rewrite <- app_assoc. }
  assert (Hfind : forall h, t <= h ->
            List.find (fun x => bool_decide (timer_handle x = h))
              (timers (runtime w)) = None)
    by (intros h Hh; now apply (find_fresh _ t)).
  split; [now split|]. split.
  - unfold fire. rewrite Htm, find_app, Hfind by (clear; lia).
    cbn [List.find timer_handle].
    rewrite (bool_decide_false (t = S t)) by (clear; lia).
    rewrite (bool_decide_true (S t = S t)) by reflexivity. reflexivity.
  - unfold fire. rewrite Htm, find_app, Hfind by (clear; lia).
    cbn [List.find timer_handle].
    rewrite (bool_decide_true (t = t)) by reflexivity.
    cbn [timer_kind].
    assert (E : timers (runtime (stopTyping (with_runtime (clearTimer t) w1)))
                = filter (fun x => timer_handle x ≠ S t)
                    (filter (fun x => timer_handle x ≠ t)
                       (timers (runtime w1)))) by reflexivity.
    rewrite E, Htm. clear E Htm Hfind. clearbody t.
    split; [reflexivity|]. split; [|reflexivity].
    filter_timers (timers (runtime w)) t Hf. reflexivity.
Qed.

(** X12. After [startTyping] and [stopTyping] the repeating timer of the
    session does nothing more: were its handle to fire, the state would not
    change, so that no is-active signal follows the stop. *)
Theorem no_tick_after_stop o w :
  let t := next_handle (runtime w) in
  let w2 := stopTyping (startTyping_resume o w) in
  fire (S t) w2 = w2.
Proof.
  intros t w2. unfold fire.
  assert (E : timers (runtime w2)
              = filter (fun x => timer_handle x ≠ S t)
                  (timers (runtime (startTyping_resume o w))))
    by reflexivity.
  now rewrite E, find_cleared.
Qed.

(** X13. [startTyping] whose is-active call fails: the chat is marked as
    typing all the same, and no timer is made that would end the session;
    the flag and the stored handles are the old ones.  A send that succeeds
    afterwards sends an is-active signal, unless the flag was set by an
    earlier session. *)
Theorem startTyping_failed o e s i w :
  let w1 := startTyping_settled o (NetFailed e) (startTyping_begin w) in
  typing (this w1) = true /\
  timers (runtime w1) = timers (runtime w) /\
  next_handle (runtime w1) = next_handle (runtime w) /\
  _disableTypingOnSend (this w1) = _disableTypingOnSend (this w) /\
  _stopTypingTimeout (this w1) = _stopTypingTimeout (this w) /\
  _keepTypingAliveInterval (this w1) = _keepTypingAliveInterval (this w) /\
  trace (runtime w1)
  = (trace (runtime w) ++ [NetIndicateActivity (id (this w)) true])%list /\
  (falsy (_disableTypingOnSend (this w)) = true ->
   List.filter is_activity
     (trace (runtime (broadcast_settled s (NetOk i) w1)))
   = (List.filter is_activity (trace (runtime w))
      ++ [NetIndicateActivity (id (this w)) true;
          NetIndicateActivity (id (this w)) true])%list).
Proof.
  intros w1. do 7 (split; [reflexivity|]). intros Hflag.
  destruct (broadcast_ok_frame s i w1) as (_ & _ & _ & _ & _ & _ & ->).
  change (typing (this w1)) with true.
  change (_disableTypingOnSend (this w1))
    with (_disableTypingOnSend (this w)).
  rewrite Hflag. cbn [andb].
  change (trace (runtime w1))
    with (trace (runtime w) ++ [NetIndicateActivity (id (this w)) true])%list.
  rewrite List.filter_app, <- app_assoc. reflexivity.
Qed.

(** X14. The repeating timer of a session replaced by a second
    [startTyping] is never cancelled: it is still scheduled after
    [stopTyping], and when it fires it leaves everything as it is, itself
    included. *)
Theorem replaced_interval_stays o1 o2 w :
  handles_fresh (runtime w) ->
  let t := next_handle (runtime w) in
  let w2 := stopTyping (startTyping_resume o2 (startTyping_resume o1 w)) in
  scheduled (S t) (runtime w2) = true /\
  fire (S t) w2 = w2.
Proof.
  intros Hf t w2. unfold handles_fresh in Hf. fold t in Hf.
  assert (Hfind : forall h, t <= h ->
            List.find (fun x => bool_decide (timer_handle x = h))
              (timers (runtime w)) = None)
    by (intros h Hh; now apply (find_fresh _ t)).
  assert (E : timers (runtime w2)
              = filter (fun x => timer_handle x ≠ S (S (S t)))
                  ((timers (runtime w)
                    ++ [mkTimer t OneShot (timeout_of (duration o1));
                        mkTimer (S t) Repeating 9000%Z])
                   ++ [mkTimer (S (S t)) OneShot (timeout_of (duration o2));
                       mkTimer (S (S (S t))) Repeating 9000%Z])%list).
  { subst w2. simpl. now rewrite <- !app_assoc. }
  assert (Htm : timers (runtime w2)
                = (timers (runtime w)
                   ++ [mkTimer t OneShot (timeout_of (duration o1));
                       mkTimer (S t) Repeating 9000%Z;
                       mkTimer (S (S t)) OneShot (timeout_of (duration o2))])
                  %list).
  { rewrite E. clear E Hfind. clearbody t. filter_timers (timers (runtime w)) t Hf.
    now rewrite <- !app_assoc. }
  assert (Hk : _keepTypingAlive w2 = w2).
  { unfold _keepTypingAlive.
    change (typing (this w2)) with false.
    change (_keepTypingAliveInterval (this w2)) with (Some (S (S (S t)))).
    unfold with_runtime, clearTimer, set_timers. cbn [runtime this client].
    rewrite Htm.
    assert (F : filter (fun x => timer_handle x ≠ S (S (S t)))
                  (timers (runtime w)
                   ++ [mkTimer t OneShot (timeout_of (duration o1));
                       mkTimer (S t) Repeating 9000%Z;
                       mkTimer (S (S t)) OneShot (timeout_of (duration o2))])
                  %list
                = (timers (runtime w)
                   ++ [mkTimer t OneShot (timeout_of (duration o1));
                       mkTimer (S t) Repeating 9000%Z;
                       mkTimer (S (S t)) OneShot (timeout_of (duration o2))])
                  %list).
    { clear E Htm Hfind. clearbody t. filter_timers (timers (runtime w)) t Hf. reflexivity. }
    rewrite F, <- Htm. now destruct w2 as [c cl [ts n ps tr]]. }
  split.
  - unfold scheduled. rewrite Htm. apply bool_decide_true.
    rewrite map_app, elem_of_app. right. simpl. right. left.
  - unfold fire. rewrite Htm, find_app, Hfind by (clear; lia).
    cbn [List.find timer_handle].
    rewrite (bool_decide_false (t = S t)) by (clear; lia).
    rewrite (bool_decide_true (S t = S t)) by reflexivity.
    cbn [timer_kind]. exact Hk.
Qed.

End TypingSession.

(** ** [sendPhoto] when the file is read, and the two delegations *)
Section PhotoAndDelegations.
Context `{Ext : Externals}.
Implicit Types (d : Data) (w : World) (i : string).

(** X15. [sendPhoto] when [_verify] succeeds; the resolvers stored when
    [sendPhoto] is called belong to promises that exist.  The broadcast of
    the photo is issued then, once, with the bytes [_verify] produced, and
    the chat is not changed by it; the answer of the broadcast is given to
    the promise that [sendPhoto] returned, which is fulfilled with the
    message that [messages] holds under [i], built from the last item [i]
    of the snapshot, when a merge has brought it. *)
Theorem sendPhoto_resolves file d i it w :
  resolvers_allocated w ->
  last_item i (data_items d) = Some it ->
  let s := fst (sendPhoto None w) in
  let r := verify_settled s (NetOk file) (snd (sendPhoto None w)) in
  exists s',
    fst r = Some s' /\
    outer s' = outer s /\
    this (snd r) = this w /\
    trace (runtime (snd r))
    = (trace (runtime w) ++ [NetBroadcastPhoto (id (this w)) file])%list /\
    exists m,
      state_of (outer s) (broadcast_settled s' (NetOk i) (_patch d (snd r)))
      = Some (Fulfilled (Some m)) /\
      Collection.get i
        (messages (this (broadcast_settled s' (NetOk i) (_patch d (snd r)))))
      = Some m /\
      msg_fields m = Message_new (id (this w)) it.
Proof.
  intros Hall Hit s r.
  set (P := promises (runtime w)).
  set (s' := mkSend (length P) (length ((P ++ [Pending]) ++ [Pending]))).
  assert (Er : fst r = Some s') by reflexivity.
  assert (Hthis : this (snd r) = this w) by reflexivity.
  assert (Htr : trace (runtime (snd r))
                = (trace (runtime w)
                   ++ [NetBroadcastPhoto (id (this w)) file])%list).
  { subst r s. simpl. now rewrite settle_trace. }
  assert (Hne : outer s' <> chained s').
  { subst s'. simpl. rewrite !length_app. simpl. lia. }
  assert (Hp : state_of (outer s') (snd r) = Some Pending).
  { subst r s s'. unfold state_of. simpl. unfold P.
    rewrite settle_other by (rewrite length_app; simpl; lia).
    simpl.
    rewrite lookup_app_l by (rewrite !length_app; simpl; lia).
    rewrite lookup_app_l by (rewrite !length_app; simpl; lia).
    apply list_lookup_middle. reflexivity. }
  exists s'. split; [exact Er|]. split; [reflexivity|].
  split; [exact Hthis|]. split; [exact Htr|].
  destruct (resolve_after_merge s' i d it (snd r) Hne Hp)
    as (m & R1 & R2 & R3 & _).
  { intros k Hk. rewrite Hthis in Hk. apply Hall in Hk.
    unfold s', P in Hk. simpl in Hk. lia. }
  { exact Hit. }
  exists m. rewrite Hthis in R3. split; [exact R1|]. split; [exact R2|].
  exact R3.
Qed.

(** X16. [markMessageSeen] and [deleteMessage] change nothing here: after
    any number of calls the chat, with its messages, and the client are as
    before, and the network client was called once for each, in order, with
    the identifier of the thread. *)
Theorem delegations_are_remote (ms : list string) w :
  (this (fold_left (fun w m => deleteMessage m w) ms w) = this w /\
   client (fold_left (fun w m => deleteMessage m w) ms w) = client w /\
   trace (runtime (fold_left (fun w m => deleteMessage m w) ms w))
   = (trace (runtime w) ++ map (NetDeleteItem (id (this w))) ms)%list) /\
  (this (fold_left (fun w m => markMessageSeen m w) ms w) = this w /\
   client (fold_left (fun w m => markMessageSeen m w) ms w) = client w /\
   trace (runtime (fold_left (fun w m => markMessageSeen m w) ms w))
   = (trace (runtime w) ++ map (NetMarkItemSeen (id (this w))) ms)%list).
Proof.
  split; revert w; induction ms as [|m ms IH]; intros w; simpl;
    try (rewrite app_nil_r; now repeat split).
  - destruct (IH (deleteMessage m w)) as (H1 & H2 & H3).
    rewrite H1, H2, H3. simpl. rewrite <- app_assoc. now repeat split.
  - destruct (IH (markMessageSeen m w)) as (H1 & H2 & H3).
    rewrite H1, H2, H3. simpl. rewrite <- app_assoc. now repeat split.
Qed.

End PhotoAndDelegations.

(** ** The further properties on the small instance *)

(** [Demo.requested] holds ["m1"] first; [Demo.edited] brings it again. *)
Lemma approve_after_merge_witness :
  head (Collection.keys (messages (this Demo.requested))) = Some "m1" /\
  Collection.get "m1" (messages (this Demo.requested))
  = Some (@mkMessageObj Demo.demo 0 ("t1", Demo.hello)) /\
  exists m',
    trace (runtime (approve_settled (NetOk tt)
                      (_patch Demo.edited Demo.requested)))
    = [Emit "messageCreate" (Some m')] /\
    Collection.get "m1" (messages (this (_patch Demo.edited Demo.requested)))
    = Some m' /\
    msg_fields m' = ("t1", Demo.hello') /\
    2 <= msg_ref m'.
Proof.
  split; [reflexivity|]. split; [reflexivity|].
  apply (approve_after_merge Demo.edited Demo.requested "m1"
           (@mkMessageObj Demo.demo 0 ("t1", Demo.hello)) eq_refl eq_refl).
Defined.

Lemma users_are_cached_witness :
  reachable Demo.departed /\ users_from_cache Demo.departed.
Proof.
  assert (H : reachable Demo.departed)
    by apply reachable_patch, reachable_new.
  split; [exact H|]. apply (users_are_cached Demo.departed H).
Defined.

Lemma approve_own_key_witness :
  "t2" <> id (this Demo.requested) /\
  Collection.get "t2"
    (cache_pendingChats (client (approve_settled (NetOk tt) Demo.requested)))
  = Collection.get "t2" (cache_pendingChats (client Demo.requested)).
Proof.
  assert (H : "t2" <> id (this Demo.requested)) by discriminate.
  split; [exact H|].
  apply (proj2 (proj1 (proj2 (approve_own_key Demo.requested)) "t2" H)).
Defined.

Lemma sends_keep_resolvers_witness :
  Collection.has "m1" (messages (this (snd Demo.sent))) = false /\
  Collection.has "m2" (messages (this (snd Demo.sent))) = false /\
  Collection.get "m1"
    (_sentMessagesPromises
       (this (broadcast_settled (mkSend 2 3) (NetOk "m2")
                (broadcast_settled (fst Demo.sent) (NetOk "m1")
                   (snd Demo.sent)))))
  = Some (outer (fst Demo.sent)).
Proof.
  split; [reflexivity|]. split; [reflexivity|].
  apply (proj2 (sends_keep_resolvers (fst Demo.sent) (mkSend 2 3) "m1" "m2"
                  (snd Demo.sent) eq_refl eq_refl)).
Defined.

Lemma send_resolves_after_merge_witness :
  resolvers_allocated Demo.fresh /\
  last_item "m1" (data_items Demo.edited) = Some Demo.hello' /\
  exists m,
    state_of (outer (fst (sendMessage "hey" Demo.fresh)))
      (broadcast_settled (fst (sendMessage "hey" Demo.fresh)) (NetOk "m1")
         (_patch Demo.edited (snd (sendMessage "hey" Demo.fresh))))
    = Some (Fulfilled (Some m)) /\
    Collection.get "m1"
      (messages
         (this
            (broadcast_settled (fst (sendMessage "hey" Demo.fresh))
               (NetOk "m1")
               (_patch Demo.edited (snd (sendMessage "hey" Demo.fresh))))))
    = Some m /\
    msg_fields m = ("t1", Demo.hello').
Proof.
  assert (H : resolvers_allocated Demo.fresh)
    by (intros k p Hk; discriminate Hk).
  split; [exact H|]. split; [reflexivity|].
  destruct (proj1 (send_resolves_after_merge "hey" [] Demo.edited "m1"
                     Demo.hello' Demo.fresh H eq_refl))
    as (m & H1 & H2 & H3 & _).
  exists m. split; [exact H1|]. split; [exact H2|exact H3].
Defined.

Lemma typing_session_witness :
  handles_fresh (runtime Demo.fresh) /\
  timers (runtime (fire 1 (Demo.startTyping Demo.fresh))) = [].
Proof.
  assert (H : handles_fresh (runtime Demo.fresh)) by constructor.
  split; [exact H|].
  apply (proj1 (proj2 (proj2 (proj2
           (typing_session Demo.no_options Demo.fresh H))))).
Defined.

Lemma replaced_interval_stays_witness :
  handles_fresh (runtime Demo.fresh) /\
  scheduled 2
    (runtime (stopTyping
                (startTyping_resume Demo.no_options
                   (startTyping_resume Demo.no_options Demo.fresh))))
  = true.
Proof.
  assert (H : handles_fresh (runtime Demo.fresh)) by constructor.
  split; [exact H|].
  apply (proj1 (replaced_interval_stays Demo.no_options Demo.no_options
                  Demo.fresh H)).
Defined.

Lemma sendPhoto_resolves_witness :
  resolvers_allocated Demo.fresh /\
  last_item "m1" (data_items Demo.edited) = Some Demo.hello' /\
  exists s',
    fst (verify_settled (fst Demo.photo) (NetOk []) (snd Demo.photo))
    = Some s' /\
    outer s' = outer (fst Demo.photo).
Proof.
  assert (H : resolvers_allocated Demo.fresh)
    by (intros k p Hk; discriminate Hk).
  split; [exact H|]. split; [reflexivity|].
  destruct (sendPhoto_resolves [] Demo.edited "m1" Demo.hello' Demo.fresh
              H eq_refl) as (s' & H1 & H2 & _).
  exists s'. split; [exact H1|exact H2].
Defined.
(** ** Any sequence of calls and events *)
Section OverTime.
Context `{Ext : Externals}.
Implicit Types (d : Data) (w : World) (op : Op) (ops : list Op).

Lemma keepTypingAlive_this w : this (_keepTypingAlive w) = this w.
Proof. apply keepTypingAlive_frame. Qed.

Lemma stopTyping_contents w :
  contents (this (stopTyping w)) = contents (this w).
Proof.
  unfold stopTyping. now destruct (_keepTypingAliveInterval (this w)).
Qed.

Lemma fire_contents h w : contents (this (fire h w)) = contents (this w).
Proof.
  unfold fire.
  destruct (List.find _ (timers (runtime w))) as [t|]; [|reflexivity].
  destruct (timer_kind t).
  - now rewrite stopTyping_contents.
  - now rewrite keepTypingAlive_this.
Qed.

Lemma on_broadcast_contents p i w :
  contents (this (on_broadcast p i w)) = contents (this w).
Proof.
  destruct (tick_frame w) as (Ht & _).
  destruct (Collection.has i (messages (this w))) eqn:Hi.
  - rewrite (on_broadcast_known _ _ _ Hi). simpl. now rewrite Ht.
  - rewrite (on_broadcast_unknown _ _ _ Hi). simpl. now rewrite Ht.
Qed.

Lemma step_contents op w :
  is_patch op = false -> contents (this (step op w)) = contents (this w).
Proof.
  destruct op as [d| |r|m|m| |o r| |h|c|b|v|s r|s r]; intros Hop;
    try discriminate; simpl; try reflexivity.
  - now destruct r.
  - now destruct r.
  - apply stopTyping_contents.
  - apply fire_contents.
  - now destruct v.
  - now destruct r.
  - destruct r; simpl; [apply on_broadcast_contents|reflexivity].
Qed.

Lemma patch_contents d w k :
  id (this (_patch d w)) = id (this w) /\
  (Collection.has k (messages (this w)) = true ->
   Collection.has k (messages (this (_patch d w))) = true) /\
  (Collection.has k (users (this w)) = true ->
   Collection.has k (users (this (_patch d w))) = true) /\
  (Collection.has k (leftUsers (this w)) = true ->
   Collection.has k (leftUsers (this (_patch d w))) = true).
Proof.
  split; [apply patch_session|]. split; [|split].
  - intros Hk. rewrite patch_has, Hk. apply orb_true_r.
  - intros Hk. rewrite patch_users, patch_entries_has, Hk.
    apply orb_true_r.
  - intros Hk. rewrite patch_leftUsers.
    destruct (patch_entries (data_users d) _) as [us cl1]; simpl.
    rewrite patch_entries_has, Hk. apply orb_true_r.
Qed.

(** X17. Whatever is called and whatever happens, in any order: the
    identifier of the chat stays the same and no key ever leaves [messages],
    [users] or [leftUsers], [deleteMessage] included.  As long as no merge
    is among the calls, the three collections do not change at all. *)
Theorem run_keeps_contents ops w k :
  id (this (run ops w)) = id (this w) /\
  (Collection.has k (messages (this w)) = true ->
   Collection.has k (messages (this (run ops w))) = true) /\
  (Collection.has k (users (this w)) = true ->
   Collection.has k (users (this (run ops w))) = true) /\
  (Collection.has k (leftUsers (this w)) = true ->
   Collection.has k (leftUsers (this (run ops w))) = true) /\
  (forallb (fun op => negb (is_patch op)) ops = true ->
   contents (this (run ops w)) = contents (this w)).
Proof.
  revert w. induction ops as [|op ops IH]; intros w; [now repeat split|].
  change (run (op :: ops) w) with (run ops (step op w)).
  destruct (IH (step op w)) as (I1 & I2 & I3 & I4 & I5).
  assert (H : id (this (step op w)) = id (this w) /\
              (Collection.has k (messages (this w)) = true ->
               Collection.has k (messages (this (step op w))) = true) /\
              (Collection.has k (users (this w)) = true ->
               Collection.has k (users (this (step op w))) = true) /\
              (Collection.has k (leftUsers (this w)) = true ->
               Collection.has k (leftUsers (this (step op w))) = true)).
  { destruct (is_patch op) eqn:Hop.
    - destruct op; try discriminate. apply patch_contents.
    - pose proof (step_contents op w Hop) as E. unfold contents in E.
      injection E as -> -> -> ->. now repeat split. }
  destruct H as (H1 & H2 & H3 & H4).
  split; [congruence|]. split; [auto|]. split; [auto|]. split; [auto|].
  intros Hall. simpl in Hall. apply andb_prop in Hall as [Hop Hall].
  rewrite (I5 Hall). apply step_contents.
  now destruct (is_patch op).
Qed.

End OverTime.

(** ** Resolvers over time *)
Section OverTimeRuntime.
Context `{Ext : Externals}.
Implicit Types (d : Data) (w : World) (op : Op) (ops : list Op)
               (r : Runtime).

Lemma stopTyping_resolvers w :
  _sentMessagesPromises (this (stopTyping w)) = _sentMessagesPromises (this w).
Proof.
  unfold stopTyping. now destruct (_keepTypingAliveInterval (this w)).
Qed.

Lemma fire_resolvers h w :
  _sentMessagesPromises (this (fire h w)) = _sentMessagesPromises (this w).
Proof.
  unfold fire.
  destruct (List.find _ (timers (runtime w))) as [t|]; [|reflexivity].
  destruct (timer_kind t).
  - now rewrite stopTyping_resolvers.
  - now rewrite keepTypingAlive_this.
Qed.

Lemma on_broadcast_resolvers p i j w :
  j <> i ->
  Collection.get i (_sentMessagesPromises (this (on_broadcast p j w)))
  = Collection.get i (_sentMessagesPromises (this w)).
Proof.
  intros Hne. destruct (tick_frame w) as (Ht & _).
  destruct (Collection.has j (messages (this w))) eqn:Hj.
  - rewrite (on_broadcast_known _ _ _ Hj). simpl.
    rewrite get_delete_ne, get_set_ne, Ht by congruence. reflexivity.
  - rewrite (on_broadcast_unknown _ _ _ Hj). simpl.
    rewrite get_set_ne, Ht by congruence. reflexivity.
Qed.

Lemma step_resolvers i op w :
  answers i op = false -> brings i op = false ->
  Collection.get i (_sentMessagesPromises (this (step op w)))
  = Collection.get i (_sentMessagesPromises (this w)).
Proof.
  destruct op as [d| |r|m|m| |o r| |h|c|b|v|s r|s r]; intros Hop Hb;
    cbn [step]; try reflexivity.
  - rewrite patch_resolvers. cbn [brings] in Hb. rewrite Hb.
    now rewrite andb_false_r.
  - now destruct r.
  - now destruct r.
  - now rewrite stopTyping_resolvers.
  - now rewrite fire_resolvers.
  - now destruct v.
  - now destruct r.
  - destruct r as [j|e]; simpl; [|reflexivity].
    apply on_broadcast_resolvers. simpl in Hop.
    now apply String.eqb_neq in Hop.
Qed.

(** X18. A resolver stored under an identifier stays there, with the
    promise it belongs to, through every call and event that is neither an
    answer of a broadcast with that identifier nor a merge whose snapshot
    has an item with that identifier: no other merge, no timer and no other
    method takes it out. *)
Theorem run_keeps_resolver i p ops w :
  Collection.get i (_sentMessagesPromises (this w)) = Some p ->
  forallb (fun op => negb (answers i op || brings i op)) ops = true ->
  Collection.get i (_sentMessagesPromises (this (run ops w))) = Some p.
Proof.
  revert w. induction ops as [|op ops IH]; intros w Hp Hall; [exact Hp|].
  change (run (op :: ops) w) with (run ops (step op w)).
  simpl in Hall. apply andb_prop in Hall as [Hop Hall].
  apply negb_true_iff, orb_false_elim in Hop as (Ha & Hb).
  apply IH; [|exact Hall]. now rewrite step_resolvers.
Qed.

Lemma clearTimer_fresh h r : handles_fresh r -> handles_fresh (clearTimer h r).
Proof.
  unfold handles_fresh, clearTimer. simpl. rewrite !Forall_forall.
  intros H t Ht. apply list_elem_of_filter in Ht as [_ Ht]. now apply H.
Qed.

Lemma stopTyping_fresh w :
  handles_fresh (runtime w) -> handles_fresh (runtime (stopTyping w)).
Proof.
  unfold stopTyping. intros H.
  destruct (_keepTypingAliveInterval (this w)); simpl; [|exact H].
  now apply (clearTimer_fresh h) in H.
Qed.

End OverTimeRuntime.

(** ** The User objects a merge does not name *)
Section OtherUsers.
Context `{Ext : Externals}.
Implicit Types (d : Data) (w : World) (cl : Client) (o : ref).

Lemma patch_entries_other l (local : Collection.t ref) cl o :
  o < length (heap cl) ->
  (forall u, u ∈ l -> Collection.get (pk u) (cache_users cl) <> Some o) ->
  heap (snd (patch_entries l (local, cl))) !! o = heap cl !! o.
Proof.
  revert local cl. induction l as [|u l IH]; intros local cl Ho Hall;
    [reflexivity|].
  change (patch_entries (u :: l) (local, cl))
    with (patch_entries l (patch_entry u (local, cl))).
  assert (Hrest : forall u', u' ∈ l ->
            Collection.get (pk u') (cache_users cl) <> Some o)
    by (intros u' Hin; apply Hall; now right).
  destruct (Collection.get (pk u) (cache_users cl)) as [o'|] eqn:E.
  - rewrite (patch_entry_present _ _ _ _ E), IH.
    + simpl. apply list_lookup_alter_ne. intros ->.
      apply (Hall u); [left|exact E].
    + simpl. now rewrite length_alter.
    + exact Hrest.
  - rewrite (patch_entry_absent _ _ _ E), IH.
    + simpl. now apply lookup_app_l.
    + simpl. rewrite length_app. simpl. lia.
    + intros u' Hin. simpl.
      destruct (String.eqb_spec (pk u') (pk u)) as [->|Hne].
      * rewrite get_set_eq. intros [= <-]. lia.
      * rewrite get_set_ne by exact Hne. now apply Hrest.
Qed.

(** X20. A merge touches the User objects of the users it lists and no
    other: an object that the cache holds under none of the listed keys has
    the same fields after the merge. *)
Theorem patch_leaves_other_users d w o :
  o < length (heap (client w)) ->
  (forall u, u ∈ (data_users d ++ data_left_users d)%list ->
     Collection.get (pk u) (cache_users (client w)) <> Some o) ->
  heap (client (_patch d w)) !! o = heap (client w) !! o.
Proof.
  intros Ho Hall.
  rewrite patch_heap, (patch_entries_app _ _ _ (leftUsers (this w))).
  now apply patch_entries_other.
Qed.

End OtherUsers.

(** [Demo.fresh] holds the object of [Demo.alice]; a merge that lists
    [Demo.bob] leaves it alone. *)
Lemma patch_leaves_other_users_witness :
  0 < length (heap (client Demo.fresh)) /\
  heap (client (_patch (Demo.snapshot [Demo.bob] [] []) Demo.fresh)) !! 0
  = Some "alice".
Proof.
  assert (H : 0 < length (heap (client Demo.fresh))) by (simpl; lia).
  split; [exact H|].
  refine (eq_trans
            (patch_leaves_other_users (Demo.snapshot [Demo.bob] [] [])
               Demo.fresh 0 H _) eq_refl).
  intros u Hu. apply list_elem_of_singleton in Hu. subst u. discriminate.
Defined.

(** The message of [Demo.requested] is there after [deleteMessage],
    [approve] and a timer that is not scheduled. *)
Lemma run_keeps_contents_witness :
  Collection.has "m1" (messages (this Demo.requested)) = true /\
  Collection.has "m1"
    (messages
       (this (run [DoDeleteMessage "m1"; DoApprove; TimerFires 7]
                Demo.requested))) = true.
Proof.
  split; [reflexivity|].
  apply (proj1 (proj2
           (run_keeps_contents [DoDeleteMessage "m1"; DoApprove; TimerFires 7]
              Demo.requested "m1"))).
  reflexivity.
Defined.

(** The resolver of [Demo.approved_answered], a chat that
    [client.cache.chats] holds, is there after a merge that brings another
    message and after [stopTyping]. *)
Lemma run_keeps_resolver_witness :
  Collection.get "m1" (_sentMessagesPromises (this Demo.approved_answered))
  = Some 0 /\
  Collection.get "m1"
    (_sentMessagesPromises
       (this (run [DoPatch (Demo.snapshot [Demo.alice] [] [Demo.again]);
                   DoStopTyping] Demo.approved_answered)))
  = Some 0.
Proof.
  split; [reflexivity|].
  apply (run_keeps_resolver "m1" 0
           [DoPatch (Demo.snapshot [Demo.alice] [] [Demo.again]);
            DoStopTyping]
           Demo.approved_answered eq_refl eq_refl).
Defined.

(** [Demo.fresh] never typed: its flag is [null]. *)
Lemma startTyping_failed_witness :
  falsy (_disableTypingOnSend (this Demo.fresh)) = true /\
  List.filter is_activity
    (trace (runtime
       (broadcast_settled (mkSend 0 1) (NetOk "m1")
          (startTyping_settled Demo.no_options (NetFailed "offline")
             (startTyping_begin Demo.fresh)))))
  = [NetIndicateActivity "t1" true; NetIndicateActivity "t1" true].
Proof.
  split; [reflexivity|].
  apply (proj2 (proj2 (proj2 (proj2 (proj2 (proj2 (proj2
           (startTyping_failed Demo.no_options "offline" (mkSend 0 1) "m1"
              Demo.fresh)))))))).
  reflexivity.
Defined.

(** ** Calls that overlap *)
Section Overlap.
Context `{Ext : Externals}.
Implicit Types (d : Data) (w : World) (o : TypingOptions).

Lemma startTyping_resume_timers o w :
  timers (runtime (startTyping_resume o w))
  = (timers (runtime w)
     ++ [mkTimer (next_handle (runtime w)) OneShot (timeout_of (duration o));
         mkTimer (S (next_handle (runtime w))) Repeating 9000%Z])%list /\
  _keepTypingAliveInterval (this (startTyping_resume o w))
  = Some (S (next_handle (runtime w))) /\
  typing (this (startTyping_resume o w)) = typing (this w).
Proof. simpl. now rewrite <- app_assoc. Qed.

(** X21. [stopTyping] called while [startTyping] waits for its network
    call: when the call is answered the two timers are made all the same,
    in a chat that is not typing.  The repeating timer then cancels itself
    at its first tick, without a signal; the one-shot timer stays. *)
Theorem stop_during_start o w :
  handles_fresh (runtime w) ->
  let t := next_handle (runtime w) in
  let w1 := startTyping_settled o (NetOk tt)
              (stopTyping (startTyping_begin w)) in
  typing (this w1) = false /\
  scheduled t (runtime w1) = true /\
  scheduled (S t) (runtime w1) = true /\
  trace (runtime (fire (S t) w1)) = trace (runtime w1) /\
  scheduled (S t) (runtime (fire (S t) w1)) = false /\
  scheduled t (runtime (fire (S t) w1)) = true.
Proof.
  intros Hf t w1.
  set (w0 := stopTyping (startTyping_begin w)).
  assert (Hf0 : handles_fresh (runtime w0))
    by (apply stopTyping_fresh; exact Hf).
  assert (Hn : next_handle (runtime w0) = t).
  { unfold w0, stopTyping, startTyping_begin. simpl.
    now destruct (_keepTypingAliveInterval (this w)). }
  assert (Htm : timers (runtime w1)
                = (timers (runtime w0)
                   ++ [mkTimer t OneShot (timeout_of (duration o));
                       mkTimer (S t) Repeating 9000%Z])%list).
  { change w1 with (startTyping_resume o w0).
    destruct (startTyping_resume_timers o w0) as (-> & _). now rewrite Hn. }
  assert (Hs : forall h, h = t \/ h = S t -> scheduled h (runtime w1) = true).
  { intros h Hh. unfold scheduled. rewrite Htm. apply bool_decide_true.
    rewrite map_app, elem_of_app. right. simpl.
    destruct Hh as [->| ->]; [left|right; left]. }
  assert (Hfire : fire (S t) w1 = with_runtime (clearTimer (S t)) w1).
  { unfold fire. unfold handles_fresh in Hf0. rewrite Hn in Hf0.
    rewrite Htm, find_app, (find_fresh _ t) by (exact Hf0 || (clear; lia)).
    cbn [List.find timer_handle].
    rewrite (bool_decide_false (t = S t)) by (clear; lia).
    rewrite (bool_decide_true (S t = S t)) by reflexivity.
    cbn [timer_kind]. unfold _keepTypingAlive.
    change (typing (this w1)) with false.
    assert (Hi : _keepTypingAliveInterval (this w1) = Some (S t)).
    { change w1 with (startTyping_resume o w0).
      destruct (startTyping_resume_timers o w0) as (_ & -> & _).
      now rewrite Hn. }
    now rewrite Hi. }
  split; [reflexivity|]. split; [apply Hs; now left|].
  split; [apply Hs; now right|]. rewrite Hfire. simpl.
  split; [reflexivity|]. split; [apply scheduled_clearTimer|].
  rewrite scheduled_clearTimer_ne by (clear; lia). apply Hs. now left.
Qed.

(** X22. A merge that arrives while [approve] waits for its network
    call decides [pending]: [approve] sets it to false before the call and
    does not touch it afterwards, so that the chat is in the chats cache,
    out of the pending chats, and [pending] is what the snapshot said. *)
Theorem merge_during_approve d w :
  let w2 := approve_settled (NetOk tt) (_patch d (approve_begin w)) in
  pending (this w2) = data_pending d /\
  Collection.has (id (this w)) (cache_chats (client w2)) = true /\
  Collection.has (id (this w)) (cache_pendingChats (client w2)) = false.
Proof.
  intros w2. subst w2.
  assert (Hp : pending (this (_patch d (approve_begin w))) = data_pending d)
    by reflexivity.
  assert (Hid : id (this (_patch d (approve_begin w))) = id (this w))
    by exact (proj1 (patch_session d (approve_begin w))).
  remember (_patch d (approve_begin w)) as w1 eqn:E1. clear E1.
  split; [|split].
  - exact Hp.
  - simpl. rewrite Hid.
    destruct (Collection.has (id (this w)) (cache_chats (client w1)))
      eqn:E; simpl; [exact E|].
    now rewrite has_set, String.eqb_refl.
  - simpl. rewrite Hid. apply has_delete_eq.
Qed.

End Overlap.

Lemma stop_during_start_witness :
  handles_fresh (runtime Demo.fresh) /\
  scheduled 2
    (runtime (fire 2 (startTyping_settled Demo.no_options (NetOk tt)
                        (stopTyping (startTyping_begin Demo.fresh)))))
  = false.
Proof.
  assert (H : handles_fresh (runtime Demo.fresh)) by constructor.
  split; [exact H|].
  apply (proj1 (proj2 (proj2 (proj2 (proj2
           (stop_during_start Demo.no_options Demo.fresh H)))))).
Defined.
